(** * aiomcache.pool: a bounded pool of memcached connections

    A shallow embedding of [aiomcache/pool.py] and the properties of its
    acquire/release protocol.

    The pool is an asyncio object: its coroutines run on one thread and give
    up control only at an [await] that really suspends.  [acquire] has two
    such places, the connector call inside [_create_new_conn] (line 86) and
    [Queue.get] on an empty queue (line 63).  The code between two of them is
    embedded as a function on the state of the world; a coroutine parked at
    one of them is a value of [Suspended]. *)

From Stdlib Require Import ZArith Lia.
From stdpp Require Import base option list gmap strings.

Open Scope Z_scope.

(** ** Python values the pool handles *)

(** Identity of a Python object ([id(o)]). *)
Definition ref := nat.

Inductive Exn :=
| KeyError
| TypeError
| OSError (errno : Z).

(** What a call gives back: a value, or an exception that propagates. *)
Inductive Result (A : Type) :=
| Ok (a : A)
| Raised (e : Exn).
Arguments Ok {A} a.
Arguments Raised {A} e.

(** Values stored in [conn_args] ([dict[str, Any]]). *)
Inductive Value :=
| VNone
| VStr (s : string)
| VInt (z : Z).

(** The state of an [asyncio.StreamReader] the pool looks at. *)
Record StreamReader := {
  _eof : bool;
  _buffer : list Byte.byte;
  _exception : option Exn;
}.

(** A reader as [StreamReader()] leaves it. *)
Definition new_reader : StreamReader :=
  {| _eof := false; _buffer := []; _exception := None |}.

(** [StreamReader.at_eof]: [self._eof and not self._buffer]. *)
Definition at_eof (s : StreamReader) : bool :=
  _eof s && match _buffer s with [] => true | _ => false end.

(** [StreamReader.exception]. *)
Definition exception (s : StreamReader) : option Exn := _exception s.

(** [StreamReader.feed_eof]: [self._eof = True]. *)
Definition feed_eof (s : StreamReader) : StreamReader :=
  {| _eof := true; _buffer := _buffer s; _exception := _exception s |}.

(** [class Connection(NamedTuple)]: a tuple object [(reader, writer)].
    [cid] is the identity of the tuple itself, which no Python comparison
    of the pool looks at. *)
Record Connection := {
  cid : ref;
  reader : ref;
  writer : ref;
}.

(** [tuple.__eq__] on two Connections: component by component; the
    components are stream objects, which define no [__eq__] and are
    therefore compared by identity. *)
Definition conn_eqb (a b : Connection) : bool :=
  (reader a =? reader b)%nat && (writer a =? writer b)%nat.

(** What [==] and [hash] see of a Connection. *)
Definition key (c : Connection) : ref * ref := (reader c, writer c).

(** ** [set] of Connections, in insertion order *)

(** [c in s] *)
Definition set_contains (s : list Connection) (c : Connection) : bool :=
  existsb (conn_eqb c) s.

(** [s.add(c)]: nothing happens when an equal element is present. *)
Definition set_add (c : Connection) (s : list Connection) : list Connection :=
  if set_contains s c then s else s ++ [c].

(** [s.remove(c)]: [None] stands for the [KeyError] of a missing element. *)
Fixpoint set_remove (c : Connection) (s : list Connection)
  : option (list Connection) :=
  match s with
  | [] => None
  | x :: s' =>
      if conn_eqb c x then Some s'
      else cons x <$> set_remove c s'
  end.

(** ** The pool object *)

(** The callables [self._connector] can be bound to; [truth] is what
    [bool(f)] gives for a callable object [f] of the caller's own. *)
Inductive Connector :=
| open_connection
| open_unix_connection
| custom_connector (f : ref) (truth : bool).

(** [bool(f)]: functions are true. *)
Definition truthy (f : Connector) : bool :=
  match f with
  | custom_connector _ truth => truth
  | _ => true
  end.

Record MemcachePool := {
  conn_args : gmap string Value;
  _connector : Connector;
  _minsize : Z;
  _maxsize : Z;
  _pool : list Connection;      (* asyncio.Queue: get at the head, put at the tail *)
  _in_use : list Connection;    (* set *)
}.

(** The pool together with the stream objects its connections refer to. *)
Record World := {
  self : MemcachePool;
  readers : gmap ref StreamReader;   (* readers that left their initial state *)
  closed : gset ref;                 (* writers on which close() was called *)
  allocated : ref;                   (* Connection tuples built so far *)
}.

Definition set_pool (q : list Connection) (w : World) : World :=
  {| self := {| conn_args := conn_args (self w);
                _connector := _connector (self w);
                _minsize := _minsize (self w);
                _maxsize := _maxsize (self w);
                _pool := q;
                _in_use := _in_use (self w) |};
     readers := readers w; closed := closed w; allocated := allocated w |}.

Definition set_in_use (s : list Connection) (w : World) : World :=
  {| self := {| conn_args := conn_args (self w);
                _connector := _connector (self w);
                _minsize := _minsize (self w);
                _maxsize := _maxsize (self w);
                _pool := _pool (self w);
                _in_use := s |};
     readers := readers w; closed := closed w; allocated := allocated w |}.

Definition reader_state (w : World) (r : ref) : StreamReader :=
  default new_reader (readers w !! r).

(** [reader.feed_eof(); writer.close()] on the two streams [r] and [wr]. *)
Definition close_streams (r wr : ref) (w : World) : World :=
  {| self := self w;
     readers := <[r := feed_eof (reader_state w r)]> (readers w);
     closed := {[wr]} ∪ closed w;
     allocated := allocated w |}.

(** Lines 45-47. *)
Definition _do_close (conn : Connection) (w : World) : World :=
  close_streams (reader conn) (writer conn) w.

(** Lines 96-97. *)
Definition size (w : World) : Z :=
  Z.of_nat (length (_pool (self w))) + Z.of_nat (length (_in_use (self w))).

(** The test of lines 64 and 79:
    [conn.reader.at_eof() or conn.reader.exception() is not None]. *)
Definition stale (w : World) (conn : Connection) : bool :=
  at_eof (reader_state w (reader conn))
  || match exception (reader_state w (reader conn)) with
     | Some _ => true
     | None => false
     end.

(** [self._pool.put_nowait(conn)]; the queue is unbounded. *)
Definition put_nowait (conn : Connection) (w : World) : World :=
  set_pool (_pool (self w) ++ [conn]) w.

(** ** Construction (lines 17-37) *)

(** [__init__]; [conn_args] and [connector] are [None] when left out. The
    test of line 28 is [not connector]: a connector that is there but false
    is replaced like a missing one. *)
Definition __init__ (host port : Value) (minsize maxsize : Z)
    (conn_args : option (gmap string Value)) (connector : option Connector)
  : MemcachePool :=
  let args := default ∅ conn_args in                 (* conn_args or {} *)
  let given :=
    match connector with
    | Some f => if truthy f then Some f else None
    | None => None
    end in
  match given with
  | None =>                                          (* if not connector *)
      {| conn_args := <["port" := port]> (<["host" := host]> args);
         _connector := open_connection;
         _minsize := minsize; _maxsize := maxsize;
         _pool := []; _in_use := [] |}
  | Some f =>
      {| conn_args := args;
         _connector := f;
         _minsize := minsize; _maxsize := maxsize;
         _pool := []; _in_use := [] |}
  end.

(** The keyword arguments [**kwargs] of [unix], one field for each name
    [__init__] knows; [kw_unknown] holds every other name. A field is
    [None] when the keyword is absent; [conn_args=None] and
    [connector=None] are [Some None]. *)
Record Kwargs := {
  kw_host : option Value;
  kw_port : option Value;
  kw_minsize : option Z;
  kw_maxsize : option Z;
  kw_conn_args : option (option (gmap string Value));
  kw_connector : option (option Connector);
  kw_unknown : list string;
}.

(** The call of [cls] with the keywords unpacked (line 22): binding them to
    the parameters of [__init__] fails on a missing required parameter and
    on an unknown keyword. *)
Definition call_cls (kw : Kwargs) : Result MemcachePool :=
  match kw_unknown kw, kw_host kw, kw_port kw, kw_minsize kw, kw_maxsize kw with
  | [], Some host, Some port, Some minsize, Some maxsize =>
      Ok (__init__ host port minsize maxsize
            (default None (kw_conn_args kw)) (default None (kw_connector kw)))
  | _, _, _, _, _ => Raised TypeError
  end.

Definition default_path : Value := VStr "/tmp/memcached.sock".

(** [MemcachePool.unix]; [path] is [None] when the caller leaves it out. *)
Definition unix (path : option Value) (kwargs : Kwargs) : Result MemcachePool :=
  let path := default default_path path in
  (* kwargs.setdefault('conn_args', {}) *)
  match default (Some ∅) (kw_conn_args kwargs) with
  | None => Raised TypeError           (* None['path'] = path *)
  | Some args =>
      call_cls
        {| kw_host := kw_host kwargs; kw_port := kw_port kwargs;
           kw_minsize := kw_minsize kwargs; kw_maxsize := kw_maxsize kwargs;
           kw_conn_args := Some (Some (<["path" := path]> args));
           kw_connector := Some (Some open_unix_connection);
           kw_unknown := kw_unknown kwargs |}
  end.

(** A pool right after construction, with no stream object around yet. *)
Definition fresh_world (p : MemcachePool) : World :=
  {| self := p; readers := ∅; closed := ∅; allocated := 0%nat |}.

(** ** [release] (lines 73-82) *)

Definition release (conn : Connection) (w : World) : Result World :=
  match set_remove conn (_in_use (self w)) with
  | None => Raised KeyError                          (* line 78 *)
  | Some s =>
      let w := set_in_use s w in
      if stale w conn then Ok (_do_close conn w)     (* line 80 *)
      else Ok (put_nowait conn w)                    (* line 82 *)
  end.

(** ** [clear] (lines 39-43)

    [get] is only awaited on a queue that is not empty, where it returns at
    once: the whole loop runs without giving up control. *)

Fixpoint drain (q : list Connection) (w : World) : World :=
  match q with
  | [] => set_pool [] w
  | conn :: q' => drain q' (_do_close conn (set_pool q' w))
  end.

Definition clear (w : World) : World := drain (_pool (self w)) w.

(** ** [_create_new_conn] (lines 84-94) *)

(** What the coroutine does up to its only [await]. *)
Inductive Entered :=
| awaits (f : Connector) (kwargs : gmap string Value)   (* line 86 *)
| returns_None.                                         (* line 94 *)

Definition _create_new_conn (w : World) : Entered :=
  if size w <? _maxsize (self w)
  then awaits (_connector (self w)) (conn_args (self w))
  else returns_None.

(** [Connection(reader, writer)]: a new tuple object. *)
Definition new_Connection (r wr : ref) (w : World) : World * Connection :=
  ({| self := self w; readers := readers w; closed := closed w;
      allocated := S (allocated w) |},
   {| cid := allocated w; reader := r; writer := wr |}).

(** From the moment the connector call of line 86 is over, with the streams
    it returned or the exception it raised, to the [return]. *)
Definition _create_new_conn_resume (res : Result (ref * ref)) (w : World)
  : World * Result (option Connection) :=
  match res with
  | Raised e => (w, Raised e)
  | Ok (r, wr) =>
      if size w <? _maxsize (self w) then            (* line 87 *)
        let '(w, conn) := new_Connection r wr w in
        (w, Ok (Some conn))
      else (close_streams r wr w, Ok None)           (* lines 90-92 *)
  end.

(** ** [acquire] (lines 49-71) *)

(** The places where an [acquire] call can be parked. *)
Inductive Suspended :=
| warmup_connect     (* line 56, inside the await of line 86 *)
| select_get         (* line 63, the queue is empty *)
| select_connect.    (* line 66, inside the await of line 86 *)

(** How a stretch of [acquire] ends. *)
Inductive Outcome :=
| Suspend (k : Suspended)
| Return (conn : Connection)
| Raise (e : Exn).

(** The loop of lines 62-68 followed by lines 70-71; [q] is what the queue
    holds. Every turn that does not leave the function takes one item off
    the queue, and [get] on an empty queue suspends. *)
Fixpoint select (q : list Connection) (w : World) : World * Outcome :=
  match q with
  | [] => (set_pool [] w, Suspend select_get)        (* line 63 *)
  | _conn :: q' =>
      let w := set_pool q' w in                      (* line 63 *)
      if stale w _conn then                          (* line 64 *)
        let w := _do_close _conn w in                (* line 65 *)
        match _create_new_conn w with                (* line 66 *)
        | awaits _ _ => (w, Suspend select_connect)
        | returns_None => select q' w                (* conn is None: line 62 *)
        end
      else
        (set_in_use (set_add _conn (_in_use (self w))) w,
         Return _conn)                               (* lines 68, 70, 71 *)
  end.

Definition selection (w : World) : World * Outcome := select (_pool (self w)) w.

(** From the loop test of line 55 on. A turn of the warm-up loop either
    parks the coroutine in the connector or leaves the loop. *)
Definition warmup (w : World) : World * Outcome :=
  if (size w =? 0) || (size w <? _minsize (self w)) then
    match _create_new_conn w with                    (* line 56 *)
    | awaits _ _ => (w, Suspend warmup_connect)
    | returns_None => selection w                    (* line 58 *)
    end
  else selection w.

(** A call of [acquire], up to its first suspension. *)
Definition acquire (w : World) : World * Outcome := warmup w.

(** The coroutine goes on after the connector call made from line 56. *)
Definition resume_warmup (res : Result (ref * ref)) (w : World)
  : World * Outcome :=
  match _create_new_conn_resume res w with
  | (w, Ok (Some _conn)) => warmup (put_nowait _conn w)   (* lines 59, 55 *)
  | (w, Ok None) => selection w                           (* line 58 *)
  | (w, Raised e) => (w, Raise e)
  end.

(** The coroutine goes on after the connector call made from line 66. A
    Connection is a tuple of length two and therefore true: the loop of line
    62 ends. *)
Definition resume_select (res : Result (ref * ref)) (w : World)
  : World * Outcome :=
  match _create_new_conn_resume res w with
  | (w, Ok (Some conn)) =>
      (set_in_use (set_add conn (_in_use (self w))) w,
       Return conn)                                       (* lines 70, 71 *)
  | (w, Ok None) => selection w                           (* line 62 *)
  | (w, Raised e) => (w, Raise e)
  end.

(** The coroutine is woken in the [get] of line 63. *)
Definition resume_get (w : World) : World * Outcome := selection w.

(** ** Callers on one event loop *)

Inductive Caller :=
| parked (k : Suspended)        (* inside [acquire] *)
| holding (conn : Connection)   (* [acquire] returned [conn] *)
| raised (e : Exn)              (* [acquire] or [release] raised *)
| finished.                     (* [release] returned *)

Definition caller_of (o : Outcome) : Caller :=
  match o with
  | Suspend k => parked k
  | Return conn => holding conn
  | Raise e => raised e
  end.

Record Sys := {
  world : World;
  callers : list Caller;
}.

(** What the event loop can run next. *)
Inductive Label :=
| start_acquire                                       (* a new caller enters acquire() *)
| connector_returns (t : nat) (res : Result (ref * ref))
| queue_wakes (t : nat)
| releases (t : nat)                                  (* caller t gives back what it holds *)
| releases_other (conn : Connection)                  (* release(conn) from anywhere else *)
| clears
| stream_changes (r : ref) (s : StreamReader).        (* the transport feeds a reader *)

Definition settle (t : nat) (wo : World * Outcome) (s : Sys) : Sys :=
  {| world := wo.1; callers := <[t := caller_of wo.2]> (callers s) |}.

Definition step (s : Sys) (l : Label) : option Sys :=
  match l with
  | start_acquire =>
      let wo := acquire (world s) in
      Some {| world := wo.1; callers := callers s ++ [caller_of wo.2] |}
  | connector_returns t res =>
      match callers s !! t with
      | Some (parked warmup_connect) => Some (settle t (resume_warmup res (world s)) s)
      | Some (parked select_connect) => Some (settle t (resume_select res (world s)) s)
      | _ => None
      end
  | queue_wakes t =>
      match callers s !! t with
      | Some (parked select_get) => Some (settle t (resume_get (world s)) s)
      | _ => None
      end
  | releases t =>
      match callers s !! t with
      | Some (holding conn) =>
          match release conn (world s) with
          | Ok w => Some {| world := w; callers := <[t := finished]> (callers s) |}
          | Raised e => Some {| world := world s; callers := <[t := raised e]> (callers s) |}
          end
      | _ => None
      end
  | releases_other conn =>
      match release conn (world s) with
      | Ok w => Some {| world := w; callers := callers s |}
      | Raised _ => Some s
      end
  | clears => Some {| world := clear (world s); callers := callers s |}
  | stream_changes r st =>
      Some {| world := {| self := self (world s);
                          readers := <[r := st]> (readers (world s));
                          closed := closed (world s);
                          allocated := allocated (world s) |};
              callers := callers s |}
  end.

(** A schedule, with a condition each of its events has to meet where it
    happens. *)
Fixpoint run (allowed : Sys -> Label -> bool) (s : Sys) (ls : list Label)
  : option Sys :=
  match ls with
  | [] => Some s
  | l :: ls' =>
      if allowed s l then
        match step s l with
        | Some s' => run allowed s' ls'
        | None => None
        end
      else None
  end.

Definition anything (s : Sys) (l : Label) : bool := true.

(** The connector hands out streams the pool does not hold: both
    [asyncio.open_connection] and [asyncio.open_unix_connection] build a new
    reader and a new writer on every call. *)
Definition new_streams (s : Sys) (l : Label) : bool :=
  match l with
  | connector_returns _ (Ok rw) =>
      bool_decide (rw ∉ key <$> (_pool (self (world s)) ++ _in_use (self (world s))))
  | _ => true
  end.

(** No [release] but by the caller that was given the connection. *)
Definition by_holder (l : Label) : bool :=
  match l with
  | releases_other _ => false
  | _ => true
  end.

Definition boot (p : MemcachePool) : Sys :=
  {| world := fresh_world p; callers := [] |}.

(** ** One caller, alone on the loop, with a connector that works *)

(** The [n]-th call of a connector that always connects: two streams nobody
    has seen yet. *)
Definition healthy_connector (n : nat) : Result (ref * ref) :=
  Ok ((2 * n)%nat, (2 * n + 1)%nat).

(** Runs a parked [acquire] to its end; [calls] counts the connector calls
    made so far. Nobody else is there to fill an empty queue. *)
Fixpoint drive (fuel calls : nat) (w : World) (o : Outcome)
  : option (World * Connection) :=
  match o with
  | Return conn => Some (w, conn)
  | Raise _ => None
  | Suspend select_get => None
  | Suspend k =>
      match fuel with
      | O => None
      | S fuel' =>
          let wo := match k with
                    | warmup_connect => resume_warmup (healthy_connector calls) w
                    | _ => resume_select (healthy_connector calls) w
                    end in
          drive fuel' (S calls) wo.1 wo.2
      end
  end.

Definition acquire_alone (fuel : nat) (w : World) : option (World * Connection) :=
  let wo := acquire w in drive fuel 0 wo.1 wo.2.

(** ** Vocabulary of the properties *)

(** The pool has [maxsize = M] and holds at most [M] connections. *)
Definition within (M : Z) (w : World) : Prop :=
  _maxsize (self w) = M ∧ size w ≤ M.

(** The warm-up loop of a caller that is alone on a pool with
    [minsize = m] and [maxsize = M] has put [j] connections in the queue. *)
Definition warming (m M : Z) (j : nat) (w : World) : Prop :=
  _minsize (self w) = m ∧ _maxsize (self w) = M ∧
  _in_use (self w) = [] ∧ length (_pool (self w)) = j ∧ readers w = ∅.

(** What the pool's comparisons see of the connections it keeps. *)
Definition keys (w : World) : list (ref * ref) :=
  key <$> (_pool (self w) ++ _in_use (self w)).

(** What a stretch of [acquire] that leads from [w] to [w'] does to the
    in-use set: a returned connection was not in it and is appended to it. *)
Definition hands_out (w w' : World) (o : Outcome) : Prop :=
  match o with
  | Return c =>
      (key c ∉ key <$> _in_use (self w)) ∧
      _in_use (self w') = _in_use (self w) ++ [c]
  | _ => _in_use (self w') = _in_use (self w)
  end.

(** The streams a connector returned are not those of a connection the
    pool keeps. *)
Definition unseen (res : Result (ref * ref)) (w : World) : Prop :=
  match res with
  | Ok rw => rw ∉ keys w
  | Raised _ => True
  end.

(** Every caller that holds a connection holds one of the in-use set [u],
    and no two callers hold equal connections. *)
Definition owned (u : list Connection) (cs : list Caller) : Prop :=
  (∀ t c, cs !! t = Some (holding c) → key c ∈ key <$> u) ∧
  (∀ t1 t2 c1 c2, t1 ≠ t2 →
     cs !! t1 = Some (holding c1) → cs !! t2 = Some (holding c2) →
     key c1 ≠ key c2).

(** [cs'] is [cs] with caller [t] replaced, or added, by [x]. *)
Definition updates (cs cs' : list Caller) (t : nat) (x : Caller) : Prop :=
  ∀ t' c', cs' !! t' = Some (holding c') →
    (t' = t ∧ x = holding c') ∨ (t' ≠ t ∧ cs !! t' = Some (holding c')).

(** The pool keeps no two equal connections, and the callers hold what the
    in-use set says. *)
Definition safe (s : Sys) : Prop :=
  NoDup (keys (world s)) ∧ owned (_in_use (self (world s))) (callers s).

(** The events [allowed] lets through, without the foreign [release]. *)
Definition disciplined (allowed : Sys → Label → bool) (s : Sys) (l : Label)
  : bool :=
  allowed s l && by_holder l.

(** The connection a stretch of [acquire] returns, if it returns one. *)
Definition gives (o : Outcome) : list Connection :=
  match o with
  | Return c => [c]
  | _ => []
  end.

(** The Connection tuples a stretch builds, starting in [w]: none, or one
    whose identity is the next one to be allocated. *)
Definition built (w : World) (news : list Connection) : Prop :=
  match news with
  | [] => True
  | [c] => cid c = allocated w
  | _ => False
  end.

(** A stretch of [acquire] from [w] to [w'] that builds [news]: what it
    returns and what it leaves in the queue was in the queue or was built,
    and what it returns is added to the in-use set. *)
Definition stretch (w w' : World) (o : Outcome) (news : list Connection) : Prop :=
  gives o ++ _pool (self w') ⊆+ _pool (self w) ++ news ∧
  _in_use (self w') = foldr set_add (_in_use (self w)) (gives o) ∧
  allocated w' = (allocated w + length news)%nat.

(** Every caller that holds a connection in [cs] still holds it in [cs']. *)
Definition keeps (cs cs' : list Caller) : Prop :=
  ∀ t c, cs !! t = Some (holding c) → cs' !! t = Some (holding c).

(** Where the Connection tuples are: a tuple is in the queue once or held
    by one caller, never both, and the in-use set consists of held tuples,
    no two of them equal. *)
Definition tracked (s : Sys) : Prop :=
  NoDup (cid <$> _pool (self (world s))) ∧
  (∀ a t c, a ∈ _pool (self (world s)) →
            callers s !! t = Some (holding c) → cid a ≠ cid c) ∧
  (∀ t1 t2 c1 c2, t1 ≠ t2 →
     callers s !! t1 = Some (holding c1) →
     callers s !! t2 = Some (holding c2) → cid c1 ≠ cid c2) ∧
  (∀ x, x ∈ _in_use (self (world s)) →
        ∃ t, callers s !! t = Some (holding x)) ∧
  NoDup (key <$> _in_use (self (world s))) ∧
  (∀ a, a ∈ _pool (self (world s)) → (cid a < allocated (world s))%nat) ∧
  (∀ t c, callers s !! t = Some (holding c) → (cid c < allocated (world s))%nat).

(** Nothing was ever created and every caller waits in [get]. *)
Definition nobody_served (s : Sys) : Prop :=
  _maxsize (self (world s)) = 0 ∧
  _pool (self (world s)) = [] ∧ _in_use (self (world s)) = [] ∧
  allocated (world s) = 0%nat ∧
  Forall (eq (parked select_get)) (callers s).

(** ** Pools, connections and schedules used as examples *)

Definition handle_a : Connection := {| cid := 0; reader := 1; writer := 2 |}%nat.
Definition handle_b : Connection := {| cid := 7; reader := 1; writer := 2 |}%nat.

(** A pool that has handed out the single connection [a]. *)
Definition lent (a : Connection) : World :=
  set_in_use [a] (fresh_world (__init__ VNone VNone 1 1 None None)).

(** A pool of at most one connection, empty, whose next reader (object 5)
    has already seen the peer close. *)
Definition dead_on_arrival : World :=
  {| self := __init__ VNone VNone 1 1 None None;
     readers := {[ 5%nat := feed_eof new_reader ]};
     closed := ∅; allocated := 0%nat |}.

Definition unix_kwargs : Kwargs :=
  {| kw_host := Some VNone; kw_port := Some VNone;
     kw_minsize := Some 1; kw_maxsize := Some 2;
     kw_conn_args := None; kw_connector := None; kw_unknown := [] |}.

Definition pool_of_one : MemcachePool :=
  __init__ (VStr "localhost") (VInt 11211) 1 1 None None.

(** Two callers race through the first test of [_create_new_conn] on a
    pool of at most one connection; the one whose connector returns last
    finds the pool full and throws its streams away. *)
Definition race : list Label :=
  [ start_acquire; start_acquire;
    connector_returns 1 (Ok (3, 4)%nat);
    connector_returns 0 (Ok (1, 2)%nat) ].

Definition pool_of_two : MemcachePool :=
  __init__ (VStr "localhost") (VInt 11211) 1 2 None None.

(** Two callers connect side by side; the first gives its connection back
    and a third caller gets it from the queue. *)
Definition hand_over : list Label :=
  [ start_acquire; start_acquire;
    connector_returns 0 (Ok (1, 2)%nat);
    connector_returns 1 (Ok (3, 4)%nat);
    releases 0;
    start_acquire ].

(** A connector of the caller's own that hands out the same two streams
    on every call, on a pool that warms up to two connections. *)
Definition same_streams_twice : list Label :=
  [ start_acquire;
    connector_returns 0 (Ok (1, 2)%nat);
    connector_returns 0 (Ok (1, 2)%nat);
    start_acquire ].

Definition pool_with_own_connector : MemcachePool :=
  __init__ VNone VNone 2 2 None (Some (custom_connector 9%nat true)).

(** ** Vocabulary of the further properties *)

(** [wo] is what one stretch of [acquire] makes of [w]: the call itself or
    one of its three resumptions. *)
Definition stretch_of (w : World) (wo : World * Outcome) : Prop :=
  wo = acquire w ∨ wo = resume_get w ∨
  ∃ res, wo = resume_warmup res w ∨ wo = resume_select res w.

(** The same, where a connector that returned, returned streams of no
    connection the pool keeps. *)
Definition stretch_with_new_streams (w : World) (wo : World * Outcome) : Prop :=
  wo = acquire w ∨ wo = resume_get w ∨
  ∃ res, unseen res w ∧ (wo = resume_warmup res w ∨ wo = resume_select res w).

(** The same keywords with another value, or none, for [connector]. *)
Definition with_connector (c : option (option Connector)) (kw : Kwargs) : Kwargs :=
  {| kw_host := kw_host kw; kw_port := kw_port kw;
     kw_minsize := kw_minsize kw; kw_maxsize := kw_maxsize kw;
     kw_conn_args := kw_conn_args kw;
     kw_connector := c;
     kw_unknown := kw_unknown kw |}.

(** The same keywords with other values for [host] and [port]. *)
Definition with_address (host port : Value) (kw : Kwargs) : Kwargs :=
  {| kw_host := Some host; kw_port := Some port;
     kw_minsize := kw_minsize kw; kw_maxsize := kw_maxsize kw;
     kw_conn_args := kw_conn_args kw;
     kw_connector := kw_connector kw;
     kw_unknown := kw_unknown kw |}.

(** The reader of [handle_a] has seen the peer close. *)
Definition peer_closed (w : World) : World :=
  {| self := self w;
     readers := <[1%nat := feed_eof new_reader]> (readers w);
     closed := closed w; allocated := allocated w |}.



(** A pool of at most one connection whose only connection, [handle_a],
    sits in the queue. *)
Definition idle_a : World :=
  {| self := {| conn_args := ∅; _connector := open_connection;
                _minsize := 1; _maxsize := 1;
                _pool := [handle_a]; _in_use := [] |};
     readers := ∅; closed := ∅; allocated := 1%nat |}.

(** * Properties *)

(** ** Equality of Connections and the in-use set *)

Lemma conn_eqb_key a b : conn_eqb a b = true ↔ key a = key b.
Proof.
  unfold conn_eqb, key. rewrite andb_true_iff, !Nat.eqb_eq.
  split; [intros [-> ->]; reflexivity | intros [= -> ->]; auto].
Qed.

Lemma conn_eqb_key_false a b : conn_eqb a b = false ↔ key a ≠ key b.
Proof.
  rewrite <- conn_eqb_key. destruct (conn_eqb a b); split; congruence.
Qed.

Lemma set_contains_key s c : set_contains s c = true ↔ key c ∈ key <$> s.
Proof.
  unfold set_contains. induction s as [|x s IH]; simpl.
  - split; [discriminate | intros H; inversion H].
  - rewrite orb_true_iff, IH, conn_eqb_key, elem_of_cons. reflexivity.
Qed.

Lemma set_contains_key_false s c : set_contains s c = false ↔ key c ∉ key <$> s.
Proof.
  rewrite <- set_contains_key. destruct (set_contains s c); split; congruence.
Qed.

Lemma set_remove_None c s : set_remove c s = None ↔ set_contains s c = false.
Proof.
  unfold set_contains. induction s as [|x s IH]; simpl; [tauto|].
  destruct (conn_eqb c x); simpl; [split; discriminate|].
  rewrite <- IH. destruct (set_remove c s); simpl; split; congruence.
Qed.

Lemma set_remove_Some c s s' :
  set_remove c s = Some s' →
  length s = S (length s') ∧ key <$> s ≡ₚ key c :: (key <$> s').
Proof.
  revert s'. induction s as [|x s IH]; simpl; intros s' H; [discriminate|].
  destruct (conn_eqb c x) eqn:E.
  - apply conn_eqb_key in E. injection H as <-. rewrite E. auto.
  - destruct (set_remove c s) as [s0|]; simpl in H; [|discriminate].
    injection H as <-. destruct (IH s0 eq_refl) as [Hl Hp]. simpl. split.
    + congruence.
    + rewrite Hp. apply Permutation_swap.
Qed.

Lemma set_add_length c s :
  (length (set_add c s) ≤ S (length s))%nat.
Proof.
  unfold set_add. destruct (set_contains s c); [lia|].
  rewrite length_app. simpl. lia.
Qed.

Lemma set_add_contains c s : set_contains (set_add c s) c = true.
Proof.
  unfold set_add. destruct (set_contains s c) eqn:E; [exact E|].
  apply set_contains_key. rewrite fmap_app, elem_of_app. right.
  simpl. apply list_elem_of_singleton. reflexivity.
Qed.

(** ** Streams *)

Lemma reader_state_close_eq r wr w :
  reader_state (close_streams r wr w) r = feed_eof (reader_state w r).
Proof. unfold reader_state, close_streams; simpl. by rewrite lookup_insert_eq. Qed.

Lemma reader_state_close_ne r wr w r' :
  r ≠ r' → reader_state (close_streams r wr w) r' = reader_state w r'.
Proof.
  intros H. unfold reader_state, close_streams; simpl.
  by rewrite lookup_insert_ne.
Qed.

Lemma stale_set_pool q w c : stale (set_pool q w) c = stale w c.
Proof. reflexivity. Qed.

Lemma stale_set_in_use s w c : stale (set_in_use s w) c = stale w c.
Proof. reflexivity. Qed.

(** Closing streams never makes a stale connection look alive again. *)
Lemma stale_close_streams r wr w c :
  stale w c = true → stale (close_streams r wr w) c = true.
Proof.
  unfold stale. destruct (decide (r = reader c)) as [->|Hne].
  - rewrite reader_state_close_eq.
    destruct (reader_state w (reader c)) as [e b x]; unfold at_eof, exception; simpl.
    destruct e, b, x; simpl; auto.
  - by rewrite reader_state_close_ne.
Qed.

(** ** Comparison of Connections (C5) *)

(** C5, as the spec words it, does not hold: two Connection tuples that are
    different objects but pair the same reader with the same writer are
    equal for the pool. The second one is a member of an in-use set that
    only ever received the first, and [release] accepts it. *)
Lemma equal_contents_equal_connections :
  cid handle_a ≠ cid handle_b ∧
  reader handle_a = reader handle_b ∧ writer handle_a = writer handle_b ∧
  conn_eqb handle_a handle_b = true ∧
  set_contains [handle_a] handle_b = true ∧
  _in_use (self (lent handle_a)) = [handle_a] ∧
  ∃ w', release handle_b (lent handle_a) = Ok w' ∧
        _in_use (self w') = [] ∧ _pool (self w') = [handle_b].
Proof.
  repeat split; try reflexivity; try discriminate.
  eexists. split; [vm_compute; reflexivity|]. split; reflexivity.
Qed.

(** C5, amended: Connections are compared by their contents, the two
    streams by identity. Two Connections are equal exactly when they
    have the same reader object and the same writer object, whichever tuple
    objects they are; membership in the in-use set, and with it whether
    [release] accepts its argument, is decided by that equality. *)
Theorem connections_compared_by_streams (a b : Connection) (w : World) :
  (conn_eqb a b = true ↔ reader a = reader b ∧ writer a = writer b) ∧
  (set_contains (_in_use (self w)) a = true ↔
     ∃ x, x ∈ _in_use (self w) ∧ reader x = reader a ∧ writer x = writer a) ∧
  ((∃ w', release a w = Ok w') ↔
     ∃ x, x ∈ _in_use (self w) ∧ reader x = reader a ∧ writer x = writer a).
Proof.
  assert (Hmem : set_contains (_in_use (self w)) a = true ↔
     ∃ x, x ∈ _in_use (self w) ∧ reader x = reader a ∧ writer x = writer a).
  { rewrite set_contains_key, list_elem_of_fmap. unfold key. split.
    - intros (x & [= Hr Hw] & Hx). eauto.
    - intros (x & Hx & Hr & Hw). exists x. split; [congruence | exact Hx]. }
  split; [|split; [exact Hmem|]].
  - rewrite conn_eqb_key. unfold key. split; [intros [= -> ->]; auto | intros [-> ->]; auto].
  - rewrite <- Hmem. unfold release.
    destruct (set_remove a (_in_use (self w))) as [s|] eqn:E.
    + assert (set_contains (_in_use (self w)) a = true) as ->.
      { destruct (set_contains (_in_use (self w)) a) eqn:C; [reflexivity|].
        apply set_remove_None in C. congruence. }
      split; [reflexivity|]. intros _.
      destruct (stale _ a); eexists; reflexivity.
    + apply set_remove_None in E. rewrite E.
      split; [intros [w' H]; discriminate | discriminate].
Qed.

(** ** [release] (C6) *)




(** ** [_create_new_conn] (C3) *)

(** C3: with [size() >= maxsize] on entry the coroutine returns [None]
    and awaits nothing; otherwise it awaits the connector, called with
    [conn_args]. When the connector has returned the streams [r] and [wr],
    [size() < maxsize] is tested again: if it holds the result is a new
    Connection made of [r] and [wr] and no stream is touched; if not,
    [r] is fed end-of-stream, [wr] is closed and the result is [None].
    The pool's collections are the same before and after in both cases. *)
Theorem create_new_conn_spec (w : World) (r wr : ref) :
  (_create_new_conn w =
     if decide (_maxsize (self w) ≤ size w) then returns_None
     else awaits (_connector (self w)) (conn_args (self w))) ∧
  (let '(w', res) := _create_new_conn_resume (Ok (r, wr)) w in
   self w' = self w ∧
   if decide (size w < _maxsize (self w)) then
     (∃ conn, res = Ok (Some conn) ∧ reader conn = r ∧ writer conn = wr) ∧
     readers w' = readers w ∧ closed w' = closed w
   else
     res = Ok None ∧
     _eof (reader_state w' r) = true ∧ wr ∈ closed w').
Proof.
  unfold _create_new_conn, _create_new_conn_resume. split.
  - destruct (Z.ltb_spec (size w) (_maxsize (self w))); case_decide; auto; lia.
  - destruct (Z.ltb_spec (size w) (_maxsize (self w))); case_decide; try lia; simpl.
    + repeat split; eauto.
    + repeat split.
      * by rewrite reader_state_close_eq.
      * set_solver.
Qed.

(** ** A connector that raises (C7) *)

(** C7: when the connector raises [e], whichever of the two calls of
    [_create_new_conn] was waiting for it, [acquire] raises the same [e]
    and the world (queue, in-use set and streams) is what it was while the
    connector ran. The caller is then out of [acquire] for good: no event
    of the loop resumes it, so the connector is not called again for it. *)
Theorem connector_failure_propagates (e : Exn) (w : World) :
  resume_warmup (Raised e) w = (w, Raise e) ∧
  resume_select (Raised e) w = (w, Raise e) ∧
  (∀ s t k, world s = w → callers s !! t = Some (parked k) → k ≠ select_get →
     step s (connector_returns t (Raised e)) =
       Some {| world := w; callers := <[t := raised e]> (callers s) |}) ∧
  (∀ s t res, callers s !! t = Some (raised e) →
     step s (connector_returns t res) = None ∧ step s (queue_wakes t) = None).
Proof.
  repeat split.
  - intros s t k <- Ht Hk. simpl. rewrite Ht. by destruct k.
  - intros. simpl. by rewrite H.
  - intros. simpl. by rewrite H.
Qed.

(** ** The replacement of a stale connection (C9) *)

Lemma select_never_returns_stale q : ∀ w c,
  stale w c = true → (select q w).2 ≠ Return c.
Proof.
  induction q as [|x q IH]; intros w c Hc; simpl; [discriminate|].
  rewrite stale_set_pool. destruct (stale w x) eqn:Hx.
  - destruct (_create_new_conn _); simpl; [discriminate|].
    apply IH. unfold _do_close. by apply stale_close_streams.
  - simpl. intros [= ->]. congruence.
Qed.

(** C9: the liveness test is applied to what comes off the queue only.
    Once a stale connection has been destroyed and the connector has
    returned [r] and [wr] with room left in the pool, the Connection made of
    them goes into the in-use set and is what [acquire] returns, whatever
    state the reader [r] is in; a connection that is stale when the
    selection loop starts is never returned by it. *)
Theorem replacement_not_checked (r wr : ref) (w : World) :
  size w < _maxsize (self w) →
  (∃ w' conn,
     resume_select (Ok (r, wr)) w = (w', Return conn) ∧
     reader conn = r ∧ writer conn = wr ∧
     set_contains (_in_use (self w')) conn = true ∧
     stale w' conn = stale w conn) ∧
  (∀ c, stale w c = true → (selection w).2 ≠ Return c).
Proof.
  intros Hlt. split.
  - unfold resume_select, _create_new_conn_resume.
    destruct (Z.ltb_spec (size w) (_maxsize (self w))); [|lia]. simpl.
    eexists _, _. split; [reflexivity|]. repeat split.
    apply set_add_contains.
  - intros c Hc. by apply select_never_returns_stale.
Qed.

Lemma replacement_not_checked_witness :
  size dead_on_arrival < _maxsize (self dead_on_arrival) ∧
  ∃ w' conn,
    resume_select (Ok (5, 6)%nat) dead_on_arrival = (w', Return conn) ∧
    reader conn = 5%nat ∧ stale w' conn = true.
Proof.
  split; [reflexivity|].
  destruct (replacement_not_checked 5%nat 6%nat dead_on_arrival) as [(w' & conn & H & Hr & _ & _ & Hs) _];
    [reflexivity|].
  exists w', conn. split; [exact H|]. split; [exact Hr|].
  rewrite Hs. unfold stale. rewrite Hr. reflexivity.
Defined.

(** ** Construction (C8) *)

(** C8: when [unix] returns a pool, its connector is
    [asyncio.open_unix_connection], its [conn_args] map [path] to the
    socket path given (or the default path), and the pool is the one the
    general constructor builds from the same keywords with that connector
    and that entry added; the general constructor, called without a
    connector, takes [asyncio.open_connection] and stores [host] and [port]
    in [conn_args]. *)
Theorem unix_constructor (path : option Value) (kwargs : Kwargs) (p : MemcachePool) :
  unix path kwargs = Ok p →
  (_connector p = open_unix_connection ∧
   conn_args p !! "path" = Some (default default_path path) ∧
   ∃ host port minsize maxsize,
     kw_host kwargs = Some host ∧ kw_port kwargs = Some port ∧
     kw_minsize kwargs = Some minsize ∧ kw_maxsize kwargs = Some maxsize ∧
     p = __init__ host port minsize maxsize
           (Some (<["path" := default default_path path]>
                    (default ∅ (default None (kw_conn_args kwargs)))))
           (Some open_unix_connection)) ∧
  (∀ host port minsize maxsize args,
     let q := __init__ host port minsize maxsize args None in
     _connector q = open_connection ∧
     conn_args q !! "host" = Some host ∧
     conn_args q !! "port" = Some port ∧
     conn_args q = <["port" := port]> (<["host" := host]> (default ∅ args)) ∧
     _minsize q = minsize ∧ _maxsize q = maxsize ∧
     _pool q = [] ∧ _in_use q = []).
Proof.
  intros H. split.
  - unfold unix in H.
    destruct (kw_conn_args kwargs) as [[args|]|] eqn:Ea; simpl in H; try discriminate.
    + unfold call_cls in H; simpl in H.
      destruct (kw_unknown kwargs), (kw_host kwargs), (kw_port kwargs),
        (kw_minsize kwargs), (kw_maxsize kwargs); try discriminate.
      injection H as <-. simpl. split; [reflexivity|].
      split; [by rewrite lookup_insert_eq|]. eexists _, _, _, _. repeat split.
    + unfold call_cls in H; simpl in H.
      destruct (kw_unknown kwargs), (kw_host kwargs), (kw_port kwargs),
        (kw_minsize kwargs), (kw_maxsize kwargs); try discriminate.
      injection H as <-. simpl. split; [reflexivity|].
      split; [by rewrite lookup_insert_eq|]. eexists _, _, _, _. repeat split.
  - intros host port minsize maxsize args. simpl. repeat split.
    + rewrite lookup_insert_ne by discriminate. by rewrite lookup_insert_eq.
    + by rewrite lookup_insert_eq.
Qed.

Lemma unix_constructor_witness :
  ∃ p, unix (Some (VStr "/run/mc.sock")) unix_kwargs = Ok p ∧
       _connector p = open_unix_connection ∧
       conn_args p !! "path" = Some (VStr "/run/mc.sock").
Proof.
  eexists. split; [reflexivity|].
  split; eapply (unix_constructor (Some (VStr "/run/mc.sock")) unix_kwargs); reflexivity.
Defined.

(** ** Invariants of schedules *)

(** A property kept by every allowed event holds after every schedule. *)
Lemma run_invariant (allowed : Sys → Label → bool) (I : Sys → Prop) :
  (∀ s l s', allowed s l = true → I s → step s l = Some s' → I s') →
  ∀ ls s s', I s → run allowed s ls = Some s' → I s'.
Proof.
  intros Hstep ls. induction ls as [|l ls IH]; simpl; intros s s' Hs Hrun.
  - by injection Hrun as <-.
  - destruct (allowed s l) eqn:Ha; [|discriminate].
    destruct (step s l) as [s1|] eqn:E; [|discriminate]. eauto.
Qed.

Lemma drain_self q : ∀ w,
  self (drain q w) = self (set_pool [] w) ∧ allocated (drain q w) = allocated w.
Proof.
  induction q as [|c q IH]; intros w; simpl; [auto|].
  destruct (IH (_do_close c (set_pool q w))) as [-> ->]. auto.
Qed.

(** ** The size bound (C1) *)

Section bound.
Variable M : Z.

Lemma select_within q : ∀ w,
  _maxsize (self w) = M →
  Z.of_nat (length q) + Z.of_nat (length (_in_use (self w))) ≤ M →
  within M (select q w).1.
Proof.
  induction q as [|c q IH]; intros w HM Hle; simpl.
  - split; [exact HM | unfold size; simpl; lia].
  - rewrite stale_set_pool. simpl in Hle. destruct (stale w c).
    + destruct (_create_new_conn _); simpl.
      * split; [exact HM | unfold size; simpl; lia].
      * apply IH; simpl; [exact HM | lia].
    + simpl. split; [exact HM|]. unfold size; simpl.
      pose proof (set_add_length c (_in_use (self w))). lia.
Qed.

Lemma selection_within w : within M w → within M (selection w).1.
Proof. intros [HM Hle]. by apply select_within. Qed.

Lemma warmup_within w : within M w → within M (warmup w).1.
Proof.
  intros Hw. unfold warmup.
  destruct (_ || _); [destruct (_create_new_conn w)|];
    simpl; auto using selection_within.
Qed.

Lemma close_streams_within r wr w : within M w → within M (close_streams r wr w).
Proof. auto. Qed.

Lemma resume_warmup_within res w : within M w → within M (resume_warmup res w).1.
Proof.
  intros [HM Hle]. unfold resume_warmup, _create_new_conn_resume.
  destruct res as [[r wr]|e]; [|by split].
  destruct (Z.ltb_spec (size w) (_maxsize (self w))); simpl.
  - apply warmup_within. split; [exact HM|].
    unfold size in *; simpl. rewrite length_app; simpl. lia.
  - apply selection_within. by split.
Qed.

Lemma resume_select_within res w : within M w → within M (resume_select res w).1.
Proof.
  intros [HM Hle]. unfold resume_select, _create_new_conn_resume.
  destruct res as [[r wr]|e]; [|by split].
  destruct (Z.ltb_spec (size w) (_maxsize (self w))); simpl.
  - split; [exact HM|]. unfold size in *; simpl.
    match goal with |- context [set_add ?c ?s] =>
      pose proof (set_add_length c s) end. lia.
  - apply selection_within. by split.
Qed.

Lemma release_within conn w w' : release conn w = Ok w' → within M w → within M w'.
Proof.
  unfold release. intros H [HM Hle].
  destruct (set_remove conn (_in_use (self w))) as [s|] eqn:E; [|discriminate].
  apply set_remove_Some in E as [Hl _].
  rewrite stale_set_in_use in H. unfold size in Hle.
  destruct (stale w conn); injection H as <-; (split; [exact HM|]);
    unfold size; simpl; rewrite ?length_app; simpl; lia.
Qed.

Lemma clear_within w : within M w → within M (clear w).
Proof.
  intros [HM Hle]. unfold clear, within, size in *.
  destruct (drain_self (_pool (self w)) w) as [-> _]. simpl. lia.
Qed.

Lemma step_within s l s' :
  within M (world s) → step s l = Some s' → within M (world s').
Proof.
  intros Hw. destruct l as [|t res|t|t|conn| |r st]; simpl.
  - intros [= <-]. simpl. by apply warmup_within.
  - destruct (callers s !! t) as [[[]| | |]|]; intros [= <-]; simpl;
      auto using resume_warmup_within, resume_select_within.
  - destruct (callers s !! t) as [[[]| | |]|]; intros [= <-]; simpl.
    by apply selection_within.
  - destruct (callers s !! t) as [[|conn| |]|]; try discriminate.
    destruct (release conn (world s)) eqn:E; intros [= <-]; simpl;
      eauto using release_within.
  - destruct (release conn (world s)) eqn:E; intros [= <-]; simpl;
      eauto using release_within.
  - intros [= <-]. simpl. by apply clear_within.
  - intros [= <-]. exact Hw.
Qed.
End bound.

(** C1: take a pool built with [maxsize >= 0] and let any number of
    callers run [acquire] and [release] (and [clear]) on one event loop, in
    any interleaving, giving up control only in the connector and in [get]
    on an empty queue, with a connector that returns or raises as it
    likes and streams that change state as they like. Whenever the loop
    is between two events, [size()], the length of the queue plus the
    number of connections in use, is at most [maxsize]. *)
Theorem size_never_exceeds_maxsize
    (host port : Value) (minsize maxsize : Z)
    (args : option (gmap string Value)) (connector : option Connector)
    (schedule : list Label) (s : Sys) :
  0 ≤ maxsize →
  run anything (boot (__init__ host port minsize maxsize args connector))
      schedule = Some s →
  size (world s) =
    Z.of_nat (length (_pool (self (world s)))) +
    Z.of_nat (length (_in_use (self (world s)))) ∧
  size (world s) ≤ maxsize.
Proof.
  intros H0 Hrun. split; [reflexivity|].
  eapply (run_invariant anything (λ s, within maxsize (world s))); [| |exact Hrun].
  - intros s0 l s1 _. apply step_within.
  - unfold boot, within, size. destruct connector as [[| |? []]|]; simpl; split; auto.
Qed.

Lemma size_never_exceeds_maxsize_witness :
  0 ≤ 1 ∧
  ∃ s, run anything (boot pool_of_one) race = Some s ∧
       callers s = [parked select_get;
                    holding {| cid := 0; reader := 3; writer := 4 |}%nat] ∧
       size (world s) ≤ 1.
Proof.
  split; [lia|]. eexists. split; [vm_compute; reflexivity|].
  split; [reflexivity|].
  eapply (size_never_exceeds_maxsize (VStr "localhost") (VInt 11211) 1 1 None None race);
    [lia | vm_compute; reflexivity].
Defined.

(** ** A pool with [maxsize = 0] (C10) *)

Lemma create_new_conn_full w :
  _maxsize (self w) ≤ size w → _create_new_conn w = returns_None.
Proof.
  intros H. unfold _create_new_conn.
  by destruct (Z.ltb_spec (size w) (_maxsize (self w))); [lia|].
Qed.

Lemma size_nonneg w : 0 ≤ size w.
Proof. unfold size. lia. Qed.

Lemma acquire_zero_maxsize w :
  _maxsize (self w) = 0 → _pool (self w) = [] →
  acquire w = (w, Suspend select_get).
Proof.
  intros HM Hq. unfold acquire, warmup.
  rewrite create_new_conn_full by (rewrite HM; apply size_nonneg).
  unfold selection. rewrite Hq. simpl.
  destruct w as [[] ? ? ?]; simpl in *; subst.
  by destruct (_ || _).
Qed.

Lemma step_nobody_served s l s' :
  nobody_served s → step s l = Some s' → nobody_served s'.
Proof.
  intros (HM & Hq & Hu & Ha & Hc).
  assert (Hsel : selection (world s) = (world s, Suspend select_get)).
  { unfold selection. rewrite Hq. simpl.
    destruct (world s) as [[] ? ? ?]; simpl in *; by subst. }
  destruct l as [|t res|t|t|conn| |r st]; simpl.
  - rewrite acquire_zero_maxsize by done. intros [= <-]. simpl.
    repeat split; auto. apply Forall_app. split; [exact Hc|]. by repeat constructor.
  - destruct (callers s !! t) as [c|] eqn:Et; [|discriminate].
    rewrite Forall_lookup in Hc. rewrite <- (Hc _ _ Et). discriminate.
  - destruct (callers s !! t) as [c|] eqn:Et; [|discriminate].
    pose proof Hc as Hc'. rewrite Forall_lookup in Hc'. rewrite <- (Hc' _ _ Et).
    unfold resume_get. rewrite Hsel. intros [= <-]. unfold settle; simpl.
    repeat split; auto. by apply Forall_insert.
  - destruct (callers s !! t) as [c|] eqn:Et; [|discriminate].
    rewrite Forall_lookup in Hc. rewrite <- (Hc _ _ Et). discriminate.
  - unfold release. rewrite Hu. simpl. intros [= <-]. by repeat split.
  - unfold clear. rewrite Hq. simpl. intros [= <-]. simpl. by repeat split.
  - intros [= <-]. simpl. by repeat split.
Qed.

(** C10: [__init__] stores whatever [minsize] and [maxsize] it is given.
    With [maxsize = 0], [_create_new_conn] returns [None] in every state
    without awaiting the connector, and [acquire] on an empty queue changes
    nothing and parks in [get]. On a pool built with [maxsize = 0],
    whatever the schedule, no Connection is ever built, both collections
    stay empty and every caller of [acquire] is parked in [get]. *)
Theorem zero_maxsize_never_connects
    (host port : Value) (args : option (gmap string Value))
    (connector : option Connector) :
  (∀ minsize maxsize,
     _minsize (__init__ host port minsize maxsize args connector) = minsize ∧
     _maxsize (__init__ host port minsize maxsize args connector) = maxsize) ∧
  (∀ w, _maxsize (self w) = 0 → _create_new_conn w = returns_None) ∧
  (∀ w, _maxsize (self w) = 0 → _pool (self w) = [] →
        acquire w = (w, Suspend select_get)) ∧
  (∀ minsize schedule s,
     run anything (boot (__init__ host port minsize 0 args connector)) schedule
       = Some s →
     allocated (world s) = 0%nat ∧
     _pool (self (world s)) = [] ∧ _in_use (self (world s)) = [] ∧
     ∀ t c, callers s !! t = Some c → c = parked select_get).
Proof.
  split; [intros; by destruct connector as [[| |? []]|]|].
  split; [intros w HM; apply create_new_conn_full; rewrite HM; apply size_nonneg|].
  split; [apply acquire_zero_maxsize|].
  - intros minsize schedule s Hrun.
    assert (H : nobody_served s).
    { eapply (run_invariant anything nobody_served); [| |exact Hrun].
      - intros s0 l s1 _. apply step_nobody_served.
      - unfold nobody_served, boot. destruct connector as [[| |? []]|]; simpl; by repeat split. }
    destruct H as (_ & Hq & Hu & Ha & Hc). repeat split; auto.
    intros t c Ht. rewrite Forall_lookup in Hc. by rewrite (Hc _ _ Ht).
Qed.

(** ** No connection is handed out twice (C2) *)

Lemma set_add_new c s : key c ∉ key <$> s → set_add c s = s ++ [c].
Proof.
  intros H. unfold set_add. apply set_contains_key_false in H. by rewrite H.
Qed.

Lemma select_exclusive q : ∀ w,
  NoDup (key <$> (q ++ _in_use (self w))) →
  NoDup (keys (select q w).1) ∧ hands_out w (select q w).1 (select q w).2.
Proof.
  induction q as [|c q IH]; intros w Hn; simpl.
  - by split.
  - rewrite stale_set_pool. simpl in Hn. apply NoDup_cons in Hn as [Hc Hn].
    destruct (stale w c).
    + destruct (_create_new_conn _); simpl.
      * by split.
      * apply (IH (_do_close c (set_pool q w)) Hn).
    + simpl. pose proof Hc as Hcu.
      rewrite fmap_app, not_elem_of_app in Hcu. destruct Hcu as [_ Hcu].
      rewrite (set_add_new _ _ Hcu). split; [|by split].
      unfold keys; simpl. rewrite app_assoc, fmap_app. simpl.
      rewrite <- Permutation_cons_append. by apply NoDup_cons.
Qed.

Lemma selection_exclusive w :
  NoDup (keys w) →
  NoDup (keys (selection w).1) ∧ hands_out w (selection w).1 (selection w).2.
Proof. apply select_exclusive. Qed.

Lemma warmup_exclusive w :
  NoDup (keys w) →
  NoDup (keys (warmup w).1) ∧ hands_out w (warmup w).1 (warmup w).2.
Proof.
  intros Hn. unfold warmup.
  destruct (_ || _); [destruct (_create_new_conn w)|];
    simpl; auto using selection_exclusive.
Qed.

Lemma resume_warmup_exclusive res w :
  NoDup (keys w) → unseen res w →
  NoDup (keys (resume_warmup res w).1) ∧
  hands_out w (resume_warmup res w).1 (resume_warmup res w).2.
Proof.
  intros Hn Hf. unfold resume_warmup, _create_new_conn_resume.
  destruct res as [[r wr]|e]; [|by split].
  destruct (Z.ltb_spec (size w) (_maxsize (self w))); simpl.
  - match goal with |- context [warmup ?w1] =>
      destruct (warmup_exclusive w1) as [H1 H2]; [|split; [exact H1 | exact H2]]
    end.
    unfold keys in *; simpl in *. rewrite <- app_assoc. simpl.
    rewrite fmap_app. simpl. rewrite <- Permutation_middle.
    rewrite <- fmap_app. by apply NoDup_cons.
  - by apply (selection_exclusive (close_streams r wr w)).
Qed.

Lemma resume_select_exclusive res w :
  NoDup (keys w) → unseen res w →
  NoDup (keys (resume_select res w).1) ∧
  hands_out w (resume_select res w).1 (resume_select res w).2.
Proof.
  intros Hn Hf. unfold resume_select, _create_new_conn_resume.
  destruct res as [[r wr]|e]; [|by split].
  destruct (Z.ltb_spec (size w) (_maxsize (self w))); simpl.
  - unfold unseen, keys in *; simpl in *.
    pose proof Hf as Hu. rewrite fmap_app, not_elem_of_app in Hu.
    destruct Hu as [_ Hu].
    rewrite (set_add_new {| cid := allocated w; reader := r; writer := wr |} _ Hu).
    split; [|by split].
    rewrite app_assoc, fmap_app. simpl.
    rewrite <- Permutation_cons_append. by apply NoDup_cons.
  - by apply (selection_exclusive (close_streams r wr w)).
Qed.

Lemma release_exclusive conn w w' :
  release conn w = Ok w' → NoDup (keys w) →
  NoDup (keys w') ∧
  key <$> _in_use (self w) ≡ₚ key conn :: (key <$> _in_use (self w')).
Proof.
  unfold release. intros H Hn.
  destruct (set_remove conn (_in_use (self w))) as [s|] eqn:E; [|discriminate].
  apply set_remove_Some in E as [_ Hp].
  rewrite stale_set_in_use in H. unfold keys in *.
  rewrite fmap_app, Hp in Hn. rewrite <- Permutation_middle in Hn.
  apply NoDup_cons in Hn as [Hc Hn].
  destruct (stale w conn); injection H as <-; simpl; (split; [|exact Hp]).
  - by rewrite fmap_app.
  - rewrite <- app_assoc, fmap_app. simpl. rewrite <- Permutation_middle.
    apply NoDup_cons. by split.
Qed.

Lemma clear_exclusive w : NoDup (keys w) → NoDup (keys (clear w)).
Proof.
  unfold clear, keys. destruct (drain_self (_pool (self w)) w) as [-> _]. simpl.
  rewrite fmap_app, NoDup_app. tauto.
Qed.

(** The event is a connector returning streams the pool does not keep, or
    another event. *)
Lemma new_streams_unseen s t res :
  new_streams s (connector_returns t res) = true → unseen res (world s).
Proof.
  destruct res as [rw|e]; simpl; [|done]. intros H. by apply bool_decide_eq_true in H.
Qed.

Lemma step_exclusive s l s' :
  new_streams s l = true → NoDup (keys (world s)) →
  step s l = Some s' → NoDup (keys (world s')).
Proof.
  intros Hf Hn. destruct l as [|t res|t|t|conn| |r st]; simpl.
  - intros [= <-]. simpl. by apply warmup_exclusive.
  - apply new_streams_unseen in Hf.
    destruct (callers s !! t) as [[[]| | |]|]; intros [= <-]; simpl.
    + by apply resume_warmup_exclusive.
    + by apply resume_select_exclusive.
  - destruct (callers s !! t) as [[[]| | |]|]; intros [= <-]; simpl.
    by apply selection_exclusive.
  - destruct (callers s !! t) as [[|conn| |]|]; try discriminate.
    destruct (release conn (world s)) eqn:E; intros [= <-]; simpl; [|done].
    by destruct (release_exclusive _ _ _ E Hn).
  - destruct (release conn (world s)) eqn:E; intros [= <-]; simpl; [|done].
    by destruct (release_exclusive _ _ _ E Hn).
  - intros [= <-]. simpl. by apply clear_exclusive.
  - intros [= <-]. exact Hn.
Qed.

Lemma updates_insert cs t x : updates cs (<[t := x]> cs) t x.
Proof.
  intros t' c' H. apply list_lookup_insert_Some in H as [(-> & -> & _)|[Hne H]]; auto.
Qed.

Lemma updates_snoc cs x : updates cs (cs ++ [x]) (length cs) x.
Proof.
  intros t' c' H. apply lookup_snoc_Some in H as [[Hlt H]|[-> ->]]; auto.
  right. split; [lia | exact H].
Qed.

Lemma owned_grant w w' o cs cs' t :
  owned (_in_use (self w)) cs → hands_out w w' o →
  updates cs cs' t (caller_of o) →
  owned (_in_use (self w')) cs'.
Proof.
  intros [H1 H2] Ho Hcs.
  assert (Hkeep : ∀ k, k ∈ key <$> _in_use (self w) → k ∈ key <$> _in_use (self w')).
  { intros k Hk. destruct o; simpl in Ho; try by rewrite Ho.
    destruct Ho as [_ ->]. rewrite fmap_app, elem_of_app. by left. }
  assert (Hnew : ∀ c, caller_of o = holding c →
            (key c ∉ key <$> _in_use (self w)) ∧ key c ∈ key <$> _in_use (self w')).
  { intros c Hc. destruct o; try discriminate. injection Hc as ->.
    destruct Ho as [Hn ->]. split; [exact Hn|].
    rewrite fmap_app, elem_of_app. right. by apply list_elem_of_singleton. }
  split.
  - intros t' c' Ht'. destruct (Hcs _ _ Ht') as [[-> Hx]|[Hne Hold]].
    + by apply Hnew.
    + eauto.
  - intros t1 t2 c1 c2 Hne Ht1 Ht2.
    destruct (Hcs _ _ Ht1) as [[-> Hx1]|[Hn1 Ho1]],
             (Hcs _ _ Ht2) as [[-> Hx2]|[Hn2 Ho2]].
    + congruence.
    + destruct (Hnew _ Hx1) as [Hn _]. intros Heq. apply Hn. rewrite Heq. eauto.
    + destruct (Hnew _ Hx2) as [Hn _]. intros Heq. apply Hn. rewrite <- Heq. eauto.
    + eauto.
Qed.

Lemma owned_release u u' cs t c x :
  owned u cs → cs !! t = Some (holding c) →
  key <$> u ≡ₚ key c :: (key <$> u') →
  (∀ c', x ≠ holding c') →
  owned u' (<[t := x]> cs).
Proof.
  intros [H1 H2] Ht Hp Hx. split.
  - intros t' c' Ht'. destruct (updates_insert _ _ _ _ _ Ht') as [[_ E]|[Hne Hold]].
    + by destruct (Hx c').
    + specialize (H1 _ _ Hold). rewrite Hp in H1.
      apply elem_of_cons in H1 as [Heq|Hin]; [|exact Hin].
      by destruct (H2 t' t c' c Hne Hold Ht).
  - intros t1 t2 c1 c2 Hne Ht1 Ht2.
    destruct (updates_insert _ _ _ _ _ Ht1) as [[_ E]|[_ Ho1]]; [by destruct (Hx c1)|].
    destruct (updates_insert _ _ _ _ _ Ht2) as [[_ E]|[_ Ho2]]; [by destruct (Hx c2)|].
    eauto.
Qed.

Lemma owned_forget u cs t x :
  owned u cs → (∀ c', x ≠ holding c') → owned u (<[t := x]> cs).
Proof.
  intros [H1 H2] Hx. split.
  - intros t' c' Ht'. destruct (updates_insert _ _ _ _ _ Ht') as [[_ E]|[Hne Hold]].
    + by destruct (Hx c').
    + eauto.
  - intros t1 t2 c1 c2 Hne Ht1 Ht2.
    destruct (updates_insert _ _ _ _ _ Ht1) as [[_ E]|[_ Ho1]]; [by destruct (Hx c1)|].
    destruct (updates_insert _ _ _ _ _ Ht2) as [[_ E]|[_ Ho2]]; [by destruct (Hx c2)|].
    eauto.
Qed.

Lemma clear_in_use w : _in_use (self (clear w)) = _in_use (self w).
Proof. unfold clear. by destruct (drain_self (_pool (self w)) w) as [-> _]. Qed.

Lemma step_safe s l s' :
  disciplined new_streams s l = true → safe s → step s l = Some s' → safe s'.
Proof.
  unfold disciplined. intros [Hf Hb]%andb_true_iff [Hn Ho] Hstep.
  split; [by eapply step_exclusive|].
  destruct l as [|t res|t|t|conn| |r st]; simpl in Hstep.
  - injection Hstep as <-. simpl.
    destruct (warmup_exclusive _ Hn) as [_ Hh].
    eapply owned_grant; [exact Ho | exact Hh | apply updates_snoc].
  - apply new_streams_unseen in Hf.
    destruct (callers s !! t) as [[[]| | |]|]; try discriminate;
      injection Hstep as <-; simpl.
    + destruct (resume_warmup_exclusive _ _ Hn Hf) as [_ Hh].
      eapply owned_grant; [exact Ho | exact Hh | apply updates_insert].
    + destruct (resume_select_exclusive _ _ Hn Hf) as [_ Hh].
      eapply owned_grant; [exact Ho | exact Hh | apply updates_insert].
  - destruct (callers s !! t) as [[[]| | |]|]; try discriminate;
      injection Hstep as <-; simpl.
    destruct (selection_exclusive _ Hn) as [_ Hh].
    eapply owned_grant; [exact Ho | exact Hh | apply updates_insert].
  - destruct (callers s !! t) as [[|conn| |]|] eqn:Et; try discriminate.
    destruct (release conn (world s)) eqn:E; injection Hstep as <-; simpl.
    + destruct (release_exclusive _ _ _ E Hn) as [_ Hp].
      eapply owned_release; [exact Ho | exact Et | exact Hp | discriminate].
    + by apply owned_forget.
  - discriminate.
  - injection Hstep as <-. simpl. by rewrite clear_in_use.
  - injection Hstep as <-. exact Ho.
Qed.

Lemma run_disciplined allowed ls : ∀ s s',
  run allowed s ls = Some s' → forallb by_holder ls = true →
  run (disciplined allowed) s ls = Some s'.
Proof.
  induction ls as [|l ls IH]; simpl; intros s s' Hrun Hb; [exact Hrun|].
  apply andb_true_iff in Hb as [Hl Hb]. unfold disciplined at 1.
  rewrite Hl, andb_true_r. destruct (allowed s l); [|discriminate].
  destruct (step s l); [|discriminate]. by apply IH.
Qed.

(** *** Connection tuples, one by one *)

Lemma submseteq_NoDup {A} (l k : list A) : l ⊆+ k → NoDup k → NoDup l.
Proof.
  intros [k' Hp]%submseteq_Permutation Hn. rewrite Hp in Hn.
  by apply NoDup_app in Hn as [Hn _].
Qed.

Lemma set_remove_subset c s s' :
  set_remove c s = Some s' → ∀ z, z ∈ s' → z ∈ s.
Proof.
  revert s'. induction s as [|x s IH]; simpl; intros s' H z Hz; [discriminate|].
  destruct (conn_eqb c x).
  - injection H as <-. by apply list_elem_of_further.
  - destruct (set_remove c s) as [s0|]; simpl in H; [|discriminate].
    injection H as <-. apply elem_of_cons in Hz as [->|Hz].
    + apply list_elem_of_here.
    + apply list_elem_of_further. eauto.
Qed.

Lemma set_add_keys c s : NoDup (key <$> s) → NoDup (key <$> set_add c s).
Proof.
  intros Hn. unfold set_add. destruct (set_contains s c) eqn:E; [exact Hn|].
  apply set_contains_key_false in E. rewrite fmap_app. simpl.
  rewrite <- Permutation_cons_append. by apply NoDup_cons.
Qed.

Lemma elem_of_set_add z c s : z ∈ set_add c s → z = c ∨ z ∈ s.
Proof.
  unfold set_add. destruct (set_contains s c); [auto|].
  rewrite elem_of_app, list_elem_of_singleton. tauto.
Qed.

Lemma select_tracks q : ∀ w,
  gives (select q w).2 ++ _pool (self (select q w).1) ⊆+ q ∧
  _in_use (self (select q w).1) =
    foldr set_add (_in_use (self w)) (gives (select q w).2) ∧
  allocated (select q w).1 = allocated w.
Proof.
  induction q as [|c q IH]; intros w; simpl; [by repeat split|].
  rewrite stale_set_pool. destruct (stale w c).
  - destruct (_create_new_conn _); simpl.
    + repeat split. by apply submseteq_cons.
    + destruct (IH (_do_close c (set_pool q w))) as (H1 & H2 & H3).
      repeat split; auto. by apply submseteq_cons.
  - simpl. by repeat split.
Qed.

Lemma selection_stretch w : stretch w (selection w).1 (selection w).2 [].
Proof.
  destruct (select_tracks (_pool (self w)) w) as (H1 & H2 & H3).
  unfold stretch, selection. rewrite app_nil_r. simpl.
  repeat split; auto. lia.
Qed.

Lemma stretch_idle w : stretch w w (Suspend warmup_connect) [].
Proof. unfold stretch. simpl. rewrite app_nil_r. repeat split; auto. Qed.

Lemma warmup_stretch w : stretch w (warmup w).1 (warmup w).2 [].
Proof.
  unfold warmup.
  destruct (_ || _); [destruct (_create_new_conn w)|];
    simpl; auto using selection_stretch, stretch_idle.
Qed.

Lemma resume_warmup_stretch res w :
  ∃ news, built w news ∧
    stretch w (resume_warmup res w).1 (resume_warmup res w).2 news.
Proof.
  unfold resume_warmup, _create_new_conn_resume.
  destruct res as [[r wr]|e].
  - destruct (Z.ltb_spec (size w) (_maxsize (self w))); simpl.
    + exists [ {| cid := allocated w; reader := r; writer := wr |} ].
      split; [reflexivity|].
      match goal with |- context [warmup ?w1] =>
        destruct (warmup_stretch w1) as (H1 & H2 & H3) end.
      rewrite app_nil_r in H1.
      repeat split; [exact H1 | exact H2 | rewrite H3; simpl; lia].
    + exists []. split; [exact I|].
      apply (selection_stretch (close_streams r wr w)).
  - exists []. split; [exact I|]. unfold stretch. simpl.
    rewrite app_nil_r. repeat split; auto.
Qed.

Lemma resume_select_stretch res w :
  ∃ news, built w news ∧
    stretch w (resume_select res w).1 (resume_select res w).2 news.
Proof.
  unfold resume_select, _create_new_conn_resume.
  destruct res as [[r wr]|e].
  - destruct (Z.ltb_spec (size w) (_maxsize (self w))); simpl.
    + exists [ {| cid := allocated w; reader := r; writer := wr |} ].
      split; [reflexivity|]. unfold stretch. simpl.
      repeat split; [|lia]. apply Permutation_submseteq.
      apply Permutation_cons_append.
    + exists []. split; [exact I|].
      apply (selection_stretch (close_streams r wr w)).
  - exists []. split; [exact I|]. unfold stretch. simpl.
    rewrite app_nil_r. repeat split; auto.
Qed.

Lemma keeps_insert cs t x :
  (∀ c, cs !! t ≠ Some (holding c)) → keeps cs (<[t := x]> cs).
Proof.
  intros Ht t' c H. destruct (decide (t = t')) as [->|Hne].
  - by destruct (Ht c).
  - by rewrite list_lookup_insert_ne.
Qed.

Lemma keeps_snoc cs x : keeps cs (cs ++ [x]).
Proof. intros t c H. by apply lookup_app_l_Some. Qed.

(** A stretch of [acquire] moves tuples from the queue to its caller. *)
Lemma tracked_settle w cs w' o news cs' t :
  tracked {| world := w; callers := cs |} →
  built w news → stretch w w' o news →
  updates cs cs' t (caller_of o) → keeps cs cs' →
  cs' !! t = Some (caller_of o) →
  tracked {| world := w'; callers := cs' |}.
Proof.
  intros (T1 & T2 & T3 & T4 & T5 & T6 & T7) Hb (S1 & S2 & S3) Hup Hkeep Hat.
  simpl in *.
  (* the tuples in the queue and the new ones are all different *)
  assert (Hfresh : ∀ a, a ∈ news → cid a = allocated w).
  { destruct news as [|c [|? ?]]; simpl in Hb; try done.
    - intros a Ha. inversion Ha.
    - intros a Ha%list_elem_of_singleton. by subst. }
  assert (Hn : NoDup (cid <$> (_pool (self w) ++ news))).
  { rewrite fmap_app. apply NoDup_app. split; [exact T1|]. split.
    - intros k (a & -> & Ha)%list_elem_of_fmap (b & Hk & Hb')%list_elem_of_fmap.
      specialize (T6 _ Ha). rewrite Hk, (Hfresh _ Hb') in T6. lia.
    - destruct news as [|c [|? ?]]; simpl in Hb; try done;
        repeat constructor. set_solver. }
  assert (Hn' : NoDup (cid <$> (gives o ++ _pool (self w')))).
  { eapply submseteq_NoDup; [|exact Hn]. by apply fmap_submseteq. }
  assert (Hsrc : ∀ a, a ∈ gives o ++ _pool (self w') →
            (a ∈ _pool (self w) ∨ a ∈ news)).
  { intros a Ha. apply elem_of_app. eapply elem_of_submseteq; eauto. }
  assert (Hold : ∀ a t' c, a ∈ gives o ++ _pool (self w') →
            cs !! t' = Some (holding c) → cid a ≠ cid c).
  { intros a t' c Ha Hc. destruct (Hsrc _ Ha) as [Hq|Hnew].
    - eauto.
    - rewrite (Hfresh _ Hnew). specialize (T7 _ _ Hc). lia. }
  assert (Hgive : ∀ c, caller_of o = holding c → gives o = [c]).
  { intros c Hc. destruct o; try discriminate. by injection Hc as ->. }
  unfold tracked; simpl. repeat split.
  - rewrite fmap_app in Hn'. by apply NoDup_app in Hn' as (_ & _ & Hn').
  - intros a t' c Ha Hc.
    destruct (Hup _ _ Hc) as [[-> Hx]|[Hne Hc']].
    + rewrite (Hgive _ Hx) in Hn'. simpl in Hn'.
      apply NoDup_cons in Hn' as [Hn' _]. intros Heq. apply Hn'.
      rewrite <- Heq. by apply list_elem_of_fmap_2.
    + apply (Hold a t' c); [|exact Hc']. apply elem_of_app. by right.
  - intros t1 t2 c1 c2 Hne H1 H2.
    destruct (Hup _ _ H1) as [[-> Hx1]|[Hn1 Ho1]],
             (Hup _ _ H2) as [[-> Hx2]|[Hn2 Ho2]].
    + congruence.
    + apply (Hold c1 t2 c2); [|exact Ho2].
      rewrite (Hgive _ Hx1). apply elem_of_app. left. apply list_elem_of_here.
    + intros Heq. apply (Hold c2 t1 c1); [|exact Ho1|by symmetry].
      rewrite (Hgive _ Hx2). apply elem_of_app. left. apply list_elem_of_here.
    + eauto.
  - intros x Hx. rewrite S2 in Hx.
    assert (Hcase : x ∈ _in_use (self w) ∨ caller_of o = holding x).
    { destruct o; simpl in Hx; auto.
      apply elem_of_set_add in Hx as [->|Hx]; auto. }
    destruct Hcase as [Hin|Hret].
    + destruct (T4 _ Hin) as [t' Ht']. exists t'. by apply Hkeep.
    + exists t. by rewrite Hat, Hret.
  - rewrite S2. destruct o; simpl; auto using set_add_keys.
  - intros a Ha. rewrite S3.
    destruct (Hsrc a) as [Hq|Hnew]; [apply elem_of_app; by right| |].
    + specialize (T6 _ Hq). lia.
    + rewrite (Hfresh _ Hnew). destruct news; [inversion Hnew|simpl; lia].
  - intros t' c Hc. rewrite S3.
    destruct (Hup _ _ Hc) as [[-> Hx]|[Hne Hc']].
    + destruct (Hsrc c) as [Hq|Hnew].
      { rewrite (Hgive _ Hx). apply elem_of_app. left. apply list_elem_of_here. }
      * specialize (T6 _ Hq). lia.
      * rewrite (Hfresh _ Hnew). destruct news; [inversion Hnew|simpl; lia].
    + specialize (T7 _ _ Hc'). lia.
Qed.

(** [release] by its holder moves the tuple back to the queue, or drops it. *)
Lemma tracked_release w cs t c w' :
  tracked {| world := w; callers := cs |} →
  cs !! t = Some (holding c) → release c w = Ok w' →
  tracked {| world := w'; callers := <[t := finished]> cs |}.
Proof.
  intros (T1 & T2 & T3 & T4 & T5 & T6 & T7) Ht H. simpl in *.
  unfold release in H.
  destruct (set_remove c (_in_use (self w))) as [u|] eqn:E; [|discriminate].
  pose proof (set_remove_subset _ _ _ E) as Hsub.
  apply set_remove_Some in E as [_ Hp].
  rewrite Hp in T5. apply NoDup_cons in T5 as [Hc T5].
  assert (Hq : ∀ a, a ∈ _pool (self w') → a ∈ _pool (self w) ∨ a = c).
  { rewrite stale_set_in_use in H.
    destruct (stale w c); injection H as <-; simpl; auto.
    intros a [Ha| ->%list_elem_of_singleton]%elem_of_app; auto. }
  assert (Hu : _in_use (self w') = u ∧ allocated w' = allocated w).
  { rewrite stale_set_in_use in H. by destruct (stale w c); injection H as <-. }
  destruct Hu as [Hu Ha].
  assert (Hh : ∀ t' c', <[t := finished]> cs !! t' = Some (holding c') →
            t' ≠ t ∧ cs !! t' = Some (holding c')).
  { intros t' c' H'. by destruct (updates_insert _ _ _ _ _ H') as [[_ ?]|?]. }
  unfold tracked; simpl. rewrite Hu, Ha. repeat split.
  - rewrite stale_set_in_use in H.
    destruct (stale w c); injection H as <-; simpl; [exact T1|].
    rewrite fmap_app. simpl. rewrite <- Permutation_cons_append.
    apply NoDup_cons. split; [|exact T1].
    intros (a & Heq & Hin)%list_elem_of_fmap. by apply (T2 a t c).
  - intros a t' c' Ha' Hc'. destruct (Hh _ _ Hc') as [Hne Hold].
    destruct (Hq _ Ha') as [Hin| ->]; eauto.
  - intros t1 t2 c1 c2 Hne H1 H2.
    destruct (Hh _ _ H1) as [_ ?], (Hh _ _ H2) as [_ ?]. eauto.
  - intros x Hx. destruct (T4 x (Hsub _ Hx)) as [t' Ht'].
    exists t'. rewrite list_lookup_insert_ne; [exact Ht'|].
    intros ->. rewrite Ht in Ht'. injection Ht' as ->.
    apply Hc. by apply list_elem_of_fmap_2.
  - exact T5.
  - intros a Ha'. destruct (Hq _ Ha') as [Hin| ->]; eauto.
  - intros t' c' Hc'. destruct (Hh _ _ Hc') as [_ Hold]. eauto.
Qed.

(** A [release] that raises changes nothing; its caller gives up the tuple. *)
Lemma tracked_release_raised w cs t c e :
  tracked {| world := w; callers := cs |} →
  cs !! t = Some (holding c) → release c w = Raised e →
  tracked {| world := w; callers := <[t := raised e]> cs |}.
Proof.
  intros (T1 & T2 & T3 & T4 & T5 & T6 & T7) Ht H. simpl in *.
  assert (Hc : key c ∉ key <$> _in_use (self w)).
  { unfold release in H.
    destruct (set_remove c (_in_use (self w))) as [u|] eqn:E.
    - by destruct (stale _ c).
    - by apply set_contains_key_false, set_remove_None. }
  assert (Hh : ∀ t' c', <[t := raised e]> cs !! t' = Some (holding c') →
            t' ≠ t ∧ cs !! t' = Some (holding c')).
  { intros t' c' H'. by destruct (updates_insert _ _ _ _ _ H') as [[_ ?]|?]. }
  unfold tracked; simpl. repeat split; auto.
  - intros a t' c' Ha' Hc'. destruct (Hh _ _ Hc') as [_ Hold]. eauto.
  - intros t1 t2 c1 c2 Hne H1 H2.
    destruct (Hh _ _ H1) as [_ ?], (Hh _ _ H2) as [_ ?]. eauto.
  - intros x Hx. destruct (T4 x Hx) as [t' Ht'].
    exists t'. rewrite list_lookup_insert_ne; [exact Ht'|].
    intros ->. rewrite Ht in Ht'. injection Ht' as ->.
    apply Hc. by apply list_elem_of_fmap_2.
  - intros t' c' Hc'. destruct (Hh _ _ Hc') as [_ Hold]. eauto.
Qed.

Lemma parked_not_holding (cs : list Caller) (t : nat) k :
  cs !! t = Some (parked k) → ∀ c, cs !! t ≠ Some (holding c).
Proof. intros -> c. discriminate. Qed.

Lemma step_tracked s l s' :
  by_holder l = true → tracked s → step s l = Some s' → tracked s'.
Proof.
  intros Hb Ht Hstep. destruct s as [w cs].
  destruct l as [|t res|t|t|conn| |r st]; simpl in Hstep.
  - injection Hstep as <-.
    eapply (tracked_settle w cs _ _ [] _ (length cs)); eauto.
    + exact I.
    + apply warmup_stretch.
    + apply updates_snoc.
    + apply keeps_snoc.
    + by apply list_lookup_middle.
  - destruct (cs !! t) as [[[]| | |]|] eqn:Et; try discriminate;
      injection Hstep as <-.
    + destruct (resume_warmup_stretch res w) as (news & Hn & Hs).
      eapply (tracked_settle w cs _ _ news _ t); eauto.
      * apply updates_insert.
      * eapply keeps_insert, parked_not_holding, Et.
      * apply list_lookup_insert_eq. by eapply lookup_lt_Some.
    + destruct (resume_select_stretch res w) as (news & Hn & Hs).
      eapply (tracked_settle w cs _ _ news _ t); eauto.
      * apply updates_insert.
      * eapply keeps_insert, parked_not_holding, Et.
      * apply list_lookup_insert_eq. by eapply lookup_lt_Some.
  - destruct (cs !! t) as [[[]| | |]|] eqn:Et; try discriminate;
      injection Hstep as <-.
    eapply (tracked_settle w cs _ _ [] _ t); eauto.
    + exact I.
    + apply selection_stretch.
    + apply updates_insert.
    + eapply keeps_insert, parked_not_holding, Et.
    + apply list_lookup_insert_eq. by eapply lookup_lt_Some.
  - destruct (cs !! t) as [[|conn| |]|] eqn:Et; try discriminate.
    destruct (release conn w) eqn:E; injection Hstep as <-.
    + by eapply tracked_release.
    + by eapply tracked_release_raised.
  - discriminate.
  - injection Hstep as <-.
    destruct Ht as (T1 & T2 & T3 & T4 & T5 & T6 & T7). simpl in *.
    unfold tracked, clear; simpl.
    destruct (drain_self (_pool (self w)) w) as [-> ->]. simpl.
    repeat split; auto; try constructor.
    + intros a t c Ha. inversion Ha.
    + intros a Ha. inversion Ha.
  - injection Hstep as <-. exact Ht.
Qed.

(** C2: take any schedule of [acquire], [release] and [clear] calls.
    If [release] is only called by the caller [acquire] returned the
    connection to, then, whatever the connector returns, no Connection
    tuple is in the queue and in the in-use set at once, none is in the
    in-use set twice, and no two callers hold the same tuple. If the
    connector never returns a pair of streams the pool still keeps (a
    connector that opens a new transport on every call does not), the same
    holds for the pool's own comparison, which looks at the streams: no
    connection of the queue is equal to one of the in-use set, the in-use
    set holds no two equal connections and, [release] being called by
    holders only, every caller holding a connection holds a member of the
    in-use set and no two callers hold equal connections. *)
Theorem no_connection_issued_twice
    (host port : Value) (minsize maxsize : Z)
    (args : option (gmap string Value)) (connector : option Connector)
    (schedule : list Label) (s : Sys) :
  run anything (boot (__init__ host port minsize maxsize args connector))
      schedule = Some s →
  (forallb by_holder schedule = true →
     (∀ a b, a ∈ _pool (self (world s)) → b ∈ _in_use (self (world s)) →
             cid a ≠ cid b) ∧
     NoDup (_in_use (self (world s))) ∧
     (∀ t1 t2 c1 c2, t1 ≠ t2 →
        callers s !! t1 = Some (holding c1) →
        callers s !! t2 = Some (holding c2) → cid c1 ≠ cid c2)) ∧
  (run new_streams (boot (__init__ host port minsize maxsize args connector))
       schedule = Some s →
     (∀ a b, a ∈ _pool (self (world s)) → b ∈ _in_use (self (world s)) →
             conn_eqb a b = false) ∧
     NoDup (key <$> _in_use (self (world s))) ∧
     (forallb by_holder schedule = true →
        ∀ t1 t2 c1 c2, t1 ≠ t2 →
          callers s !! t1 = Some (holding c1) →
          callers s !! t2 = Some (holding c2) →
          set_contains (_in_use (self (world s))) c1 = true ∧
          conn_eqb c1 c2 = false)).
Proof.
  intros Hany. split.
  - intros Hb. apply run_disciplined in Hany; [|exact Hb].
    assert (T : tracked s).
    { eapply (run_invariant (disciplined anything) tracked); [| |exact Hany].
      - intros s0 l s1 Hl. apply step_tracked. by apply andb_true_iff in Hl as [_ Hl].
      - unfold tracked, boot. destruct connector as [[| |? []]|]; simpl;
          repeat split; try constructor; intros; try discriminate;
          match goal with H : _ ∈ [] |- _ => inversion H end. }
    destruct T as (T1 & T2 & T3 & T4 & T5 & _). repeat split.
    + intros a b Ha Hb'. destruct (T4 _ Hb') as [t Ht]. eauto.
    + by apply NoDup_fmap_1 in T5.
    + exact T3.
  - intros Hrun.
    assert (H0 : safe (boot (__init__ host port minsize maxsize args connector))).
    { unfold safe, boot, keys, owned. destruct connector as [[| |? []]|]; simpl;
        (split; [constructor | split; intros; discriminate]). }
    assert (Hn : NoDup (keys (world s))).
    { eapply (run_invariant new_streams (λ s, NoDup (keys (world s)))); [| |exact Hrun].
      - intros s0 l s1 Hf Hs. by apply step_exclusive.
      - apply H0. }
    unfold keys in Hn. rewrite fmap_app, NoDup_app in Hn.
    destruct Hn as (_ & Hdisj & Hu).
    split; [|split; [exact Hu|]].
    + intros a b Ha Hb. apply conn_eqb_key_false. intros Heq.
      apply (Hdisj (key a)); [|rewrite Heq]; by apply list_elem_of_fmap_2.
    + intros Hb t1 t2 c1 c2 Hne Ht1 Ht2.
      apply run_disciplined in Hrun; [|exact Hb].
      destruct (run_invariant (disciplined new_streams) safe step_safe _ _ _ H0 Hrun)
        as [_ [H1 H2]].
      split.
      * apply set_contains_key. eauto.
      * apply conn_eqb_key_false. eauto.
Qed.

Lemma no_connection_issued_twice_witness :
  ∃ s, run anything (boot pool_of_two) hand_over = Some s ∧
       run new_streams (boot pool_of_two) hand_over = Some s ∧
       forallb by_holder hand_over = true ∧
       callers s = [ finished;
                     holding {| cid := 1; reader := 3; writer := 4 |}%nat;
                     holding {| cid := 0; reader := 1; writer := 2 |}%nat ] ∧
       _pool (self (world s)) = [] ∧
       NoDup (_in_use (self (world s))) ∧
       conn_eqb {| cid := 1; reader := 3; writer := 4 |}%nat
                {| cid := 0; reader := 1; writer := 2 |}%nat = false.
Proof.
  eexists. split; [vm_compute; reflexivity|].
  split; [vm_compute; reflexivity|].
  split; [reflexivity|]. split; [reflexivity|]. split; [reflexivity|].
  pose proof (no_connection_issued_twice (VStr "localhost") (VInt 11211) 1 2
                None None hand_over _ ltac:(vm_compute; reflexivity)) as [Hid Heq].
  split.
  - apply (Hid eq_refl).
  - destruct (Heq ltac:(vm_compute; reflexivity)) as (_ & _ & Hh).
    apply (Hh eq_refl 1%nat 2%nat); [discriminate | reflexivity | reflexivity].
Defined.

(** Why C2 asks for new streams: with the connector of
    [same_streams_twice] the two Connections the pool builds are equal,
    the in-use set keeps one of them and both callers hold it. Such a
    schedule is not one [new_streams] allows. *)
Example same_streams_shared :
  run new_streams (boot pool_with_own_connector) same_streams_twice = None ∧
  ∃ s, run anything (boot pool_with_own_connector) same_streams_twice = Some s ∧
       callers s = [ holding {| cid := 0; reader := 1; writer := 2 |}%nat;
                     holding {| cid := 1; reader := 1; writer := 2 |}%nat ] ∧
       _in_use (self (world s)) = [ {| cid := 0; reader := 1; writer := 2 |}%nat ].
Proof.
  split; [vm_compute; reflexivity|].
  eexists. split; [vm_compute; reflexivity|]. split; reflexivity.
Qed.

(** ** Warm-up (C4) *)

Lemma drive_more fuel : ∀ fuel' calls w o x,
  drive fuel calls w o = Some x → (fuel ≤ fuel')%nat →
  drive fuel' calls w o = Some x.
Proof.
  induction fuel as [|fuel IH]; intros fuel' calls w o x H Hle.
  - destruct o as [[]| |]; simpl in H; try discriminate.
    by destruct fuel'.
  - destruct o as [[]| |]; simpl in H; try discriminate;
      destruct fuel' as [|fuel']; try lia; simpl;
      try exact H; apply IH; try exact H; lia.
Qed.

Lemma healthy_when_untouched w c : readers w = ∅ → stale w c = false.
Proof.
  intros H. unfold stale, reader_state. by rewrite H, lookup_empty.
Qed.

Section warmup.
Variables m M : Z.
Hypothesis m_le_M : m ≤ M.
Hypothesis one_le_M : 1 ≤ M.

Lemma warming_size j w : warming m M j w → size w = Z.of_nat j.
Proof. intros (_ & _ & Hu & Hq & _). unfold size. rewrite Hu, Hq. simpl. lia. Qed.

Lemma selection_healthy j w :
  warming m M (S j) w →
  ∃ c, (selection w).2 = Return c ∧ size (selection w).1 = Z.of_nat (S j).
Proof.
  intros (_ & _ & Hu & Hq & Hr). unfold selection.
  destruct (_pool (self w)) as [|c q]; [discriminate|]. simpl.
  rewrite stale_set_pool, (healthy_when_untouched w c Hr). simpl.
  exists c. split; [reflexivity|]. unfold size; simpl. rewrite Hu. simpl.
  simpl in Hq. lia.
Qed.

(** One more connection arrives during warm-up. *)
Lemma resume_warmup_alone j calls w :
  warming m M j w → Z.of_nat j < Z.max 1 m →
  let wo := resume_warmup (healthy_connector calls) w in
  if decide (Z.of_nat (S j) < Z.max 1 m)
  then wo.2 = Suspend warmup_connect ∧ warming m M (S j) wo.1
  else ∃ c, wo.2 = Return c ∧ size wo.1 = Z.of_nat (S j).
Proof.
  intros Hw Hj. pose proof (warming_size _ _ Hw) as Hs.
  destruct Hw as (Hm & HM & Hu & Hq & Hr).
  unfold resume_warmup, healthy_connector, _create_new_conn_resume.
  destruct (Z.ltb_spec (size w) (_maxsize (self w))); [|lia]. simpl.
  match goal with |- context [warmup ?w1] => set (w2 := w1) end.
  assert (Hw2 : warming m M (S j) w2).
  { unfold warming, w2; simpl. rewrite length_app; simpl.
    repeat split; auto. lia. }
  pose proof (warming_size _ _ Hw2) as Hs2.
  unfold warmup, _create_new_conn. rewrite Hs2.
  replace (_minsize (self w2)) with m by (symmetry; apply Hw2).
  replace (_maxsize (self w2)) with M by (symmetry; apply Hw2).
  case_decide.
  - destruct (Z.eqb_spec (Z.of_nat (S j)) 0); [lia|].
    destruct (Z.ltb_spec (Z.of_nat (S j)) m); [|lia].
    destruct (Z.ltb_spec (Z.of_nat (S j)) M); [|lia]. by split.
  - destruct (Z.eqb_spec (Z.of_nat (S j)) 0); [lia|].
    destruct (Z.ltb_spec (Z.of_nat (S j)) m); [lia|]. simpl.
    by apply selection_healthy.
Qed.

Lemma drive_warmup d : ∀ j calls w,
  Z.of_nat (j + S d) = Z.max 1 m → warming m M j w →
  ∃ w' c, drive (S d) calls w (Suspend warmup_connect) = Some (w', c) ∧
          size w' = Z.max 1 m.
Proof.
  induction d as [|d IH]; intros j calls w Hn Hw; simpl.
  - pose proof (resume_warmup_alone j calls w Hw ltac:(lia)) as H.
    simpl in H. case_decide; [lia|]. destruct H as (c & -> & Hs).
    eexists _, c. split; [reflexivity|]. lia.
  - pose proof (resume_warmup_alone j calls w Hw ltac:(lia)) as H.
    simpl in H. case_decide; [|lia]. destruct H as [-> Hw'].
    apply (IH (S j) (S calls) _ ltac:(lia) Hw').
Qed.

Lemma acquire_alone_converges p :
  _minsize p = m → _maxsize p = M → _pool p = [] → _in_use p = [] →
  ∃ w c, acquire_alone (Z.to_nat (Z.max 1 m)) (fresh_world p) = Some (w, c) ∧
         size w = Z.max 1 m.
Proof.
  intros Hm HM Hq Hu. unfold acquire_alone, acquire, warmup, _create_new_conn.
  assert (Hw : warming m M 0 (fresh_world p)).
  { unfold warming; simpl. rewrite Hq. auto. }
  rewrite (warming_size _ _ Hw). simpl. rewrite HM.
  destruct (Z.ltb_spec (Z.of_nat 0) M); [|lia]. simpl.
  destruct (Z.to_nat (Z.max 1 m)) as [|d] eqn:E; [lia|].
  apply (drive_warmup d 0 0%nat); [lia | exact Hw].
Qed.
End warmup.

Lemma acquire_alone_blocked p fuel :
  _maxsize p ≤ 0 → _pool p = [] → _in_use p = [] →
  acquire_alone fuel (fresh_world p) = None.
Proof.
  intros HM Hq Hu. unfold acquire_alone, acquire, warmup.
  rewrite create_new_conn_full
    by (unfold size; simpl; rewrite Hq, Hu; simpl; lia).
  unfold selection. simpl. rewrite Hq. simpl.
  destruct (_ || _); simpl; by destruct fuel.
Qed.

(** C4: a pool is built with [minsize = m <= maxsize = M] and one caller
    runs [acquire] on it, alone, with a connector that connects every time
    and readers nobody feeds. Whenever that call returns, [size()] is at
    least [min m M]; with [M >= 1] it does return, after [max 1 m]
    connector calls, and [size()] is then [max 1 m]. A turn of the warm-up
    loop is taken while [size() == 0 or size() < minsize]: it either waits
    for the connector, whose connection is then put at the tail of the
    queue before the loop test is made again, or, when
    [_create_new_conn] gives [None] (on entry or after the connector
    returned), goes to the selection loop at once. *)
Theorem warmup_converges
    (host port : Value) (m M : Z)
    (args : option (gmap string Value)) (connector : option Connector) :
  m ≤ M →
  let w0 := fresh_world (__init__ host port m M args connector) in
  (∀ fuel w c, acquire_alone fuel w0 = Some (w, c) → Z.min m M ≤ size w) ∧
  (1 ≤ M →
   ∃ w c, acquire_alone (Z.to_nat (Z.max 1 m)) w0 = Some (w, c) ∧
          size w = Z.max 1 m) ∧
  (∀ w, warmup w =
     if decide (size w = 0 ∨ size w < _minsize (self w)) then
       if decide (size w < _maxsize (self w))
       then (w, Suspend warmup_connect)
       else selection w
     else selection w) ∧
  (∀ w r wr, resume_warmup (Ok (r, wr)) w =
     if decide (size w < _maxsize (self w))
     then let '(w1, conn) := new_Connection r wr w in warmup (put_nowait conn w1)
     else selection (close_streams r wr w)).
Proof.
  intros Hle w0.
  assert (Hp : _minsize (self w0) = m ∧ _maxsize (self w0) = M ∧
               _pool (self w0) = [] ∧ _in_use (self w0) = []).
  { unfold w0. by destruct connector as [[| |? []]|]. }
  destruct Hp as (Hm & HM & Hq & Hu).
  assert (Hconv : 1 ≤ M →
    ∃ w c, acquire_alone (Z.to_nat (Z.max 1 m)) w0 = Some (w, c) ∧
           size w = Z.max 1 m).
  { intros H1. by apply (acquire_alone_converges m M Hle H1). }
  split; [|split; [exact Hconv|split]].
  - intros fuel w c H. destruct (Z.le_gt_cases 1 M) as [H1|H0].
    + destruct (Hconv H1) as (w1 & c1 & Hrun & Hs).
      unfold acquire_alone in H, Hrun.
      apply (drive_more _ (Nat.max fuel (Z.to_nat (Z.max 1 m)))) in H; [|lia].
      apply (drive_more _ (Nat.max fuel (Z.to_nat (Z.max 1 m)))) in Hrun; [|lia].
      rewrite H in Hrun. injection Hrun as -> ->. lia.
    + unfold w0 in H. rewrite acquire_alone_blocked in H; [discriminate| | |].
      * fold w0. simpl in HM. lia.
      * exact Hq.
      * exact Hu.
  - intros w. unfold warmup, _create_new_conn.
    destruct (Z.eqb_spec (size w) 0), (Z.ltb_spec (size w) (_minsize (self w))),
      (Z.ltb_spec (size w) (_maxsize (self w)));
      simpl; repeat case_decide; try reflexivity; try lia; tauto.
  - intros w r wr. unfold resume_warmup, _create_new_conn_resume.
    destruct (Z.ltb_spec (size w) (_maxsize (self w)));
      simpl; case_decide; try reflexivity; lia.
Qed.

Lemma warmup_converges_witness :
  3 ≤ 4 ∧
  ∃ w c, acquire_alone 3 (fresh_world (__init__ VNone VNone 3 4 None None))
           = Some (w, c) ∧
         length (_pool (self w)) = 2%nat ∧ _in_use (self w) = [c] ∧
         Z.min 3 4 ≤ size w.
Proof.
  split; [lia|]. eexists _, _. split; [vm_compute; reflexivity|].
  split; [reflexivity|]. split; [reflexivity|].
  eapply (proj1 (warmup_converges VNone VNone 3 4 None None ltac:(lia)) 3%nat).
  vm_compute. reflexivity.
Defined.

(** * Further properties of the pool *)

(** ** [clear] and [_do_close] *)

Lemma set_pool_nil w : _pool (self w) = [] → set_pool [] w = w.
Proof. destruct w as [[] ? ? ?]; simpl. by intros ->. Qed.

Lemma eof_close_streams r wr w r' :
  _eof (reader_state w r') = true →
  _eof (reader_state (close_streams r wr w) r') = true.
Proof.
  intros H. destruct (decide (r = r')) as [->|Hne].
  - by rewrite reader_state_close_eq.
  - by rewrite reader_state_close_ne.
Qed.

Lemma drain_eof_kept q : ∀ w r,
  _eof (reader_state w r) = true → _eof (reader_state (drain q w) r) = true.
Proof.
  induction q as [|c q IH]; intros w r H; simpl; [exact H|].
  apply IH. unfold _do_close. by apply eof_close_streams.
Qed.

Lemma drain_streams q : ∀ w,
  (∀ c, c ∈ q → _eof (reader_state (drain q w) (reader c)) = true) ∧
  (∀ r, r ∉ reader <$> q → reader_state (drain q w) r = reader_state w r) ∧
  (∀ x, x ∈ closed (drain q w) ↔ x ∈ closed w ∨ x ∈ writer <$> q).
Proof.
  induction q as [|c q IH]; intros w; simpl.
  - split; [intros c Hc; inversion Hc|]. split; [done|].
    intros x. split; [auto | intros [H|H]; [exact H | inversion H]].
  - destruct (IH (_do_close c (set_pool q w))) as (H1 & H2 & H3).
    split; [|split].
    + intros x [->|Hx]%elem_of_cons; [|by apply H1].
      apply drain_eof_kept. unfold _do_close. by rewrite reader_state_close_eq.
    + intros r [Hr Hq]%not_elem_of_cons. rewrite (H2 r Hq).
      unfold _do_close. by rewrite reader_state_close_ne.
    + intros x. rewrite H3. unfold _do_close, close_streams; simpl.
      rewrite elem_of_union, elem_of_singleton, elem_of_cons. tauto.
Qed.

(** X1: [clear] empties the queue and leaves the in-use set and the
    configuration alone, so that [size()] is the number of connections in
    use; every connection that was idle has its reader fed end-of-stream
    and its writer closed, no other reader changes and no other writer is
    closed; nothing happens when it is run a second time. *)
Theorem clear_spec (w : World) :
  _pool (self (clear w)) = [] ∧
  _in_use (self (clear w)) = _in_use (self w) ∧
  size (clear w) = Z.of_nat (length (_in_use (self w))) ∧
  (conn_args (self (clear w)) = conn_args (self w) ∧
   _connector (self (clear w)) = _connector (self w) ∧
   _minsize (self (clear w)) = _minsize (self w) ∧
   _maxsize (self (clear w)) = _maxsize (self w)) ∧
  (∀ c, c ∈ _pool (self w) →
        _eof (reader_state (clear w) (reader c)) = true ∧
        writer c ∈ closed (clear w)) ∧
  (∀ r, r ∉ reader <$> _pool (self w) →
        reader_state (clear w) r = reader_state w r) ∧
  (∀ x, x ∈ closed (clear w) → x ∈ closed w ∨ x ∈ writer <$> _pool (self w)) ∧
  clear (clear w) = clear w.
Proof.
  unfold clear at 1 2 3 4 5 6 7 8 9 10 11.
  destruct (drain_self (_pool (self w)) w) as [Hs _].
  destruct (drain_streams (_pool (self w)) w) as (H1 & H2 & H3).
  assert (Hq : _pool (self (clear w)) = []) by (unfold clear; by rewrite Hs).
  unfold size. rewrite Hs. simpl. repeat split; auto.
  - apply H3. right. by apply list_elem_of_fmap_2.
  - intros x Hx. by apply H3.
  - unfold clear at 1. fold (clear w). rewrite Hq. simpl. by apply set_pool_nil.
Qed.

Lemma feed_eof_twice s : feed_eof (feed_eof s) = feed_eof s.
Proof. reflexivity. Qed.

(** X2: destroying a connection twice is destroying it once, it touches
    neither the queue nor the in-use set, and it never makes a connection
    that fails the liveness test pass it again. *)
Theorem do_close_idempotent (conn : Connection) (w : World) :
  _do_close conn (_do_close conn w) = _do_close conn w ∧
  self (_do_close conn w) = self w ∧
  (∀ c, stale w c = true → stale (_do_close conn w) c = true).
Proof.
  split; [|split; [reflexivity|]].
  - unfold _do_close, close_streams; simpl. f_equal.
    + unfold reader_state at 1; simpl. rewrite lookup_insert_eq. simpl.
      by rewrite insert_insert_eq.
    + by rewrite (assoc_L (∪)), (idemp_L (∪)).
  - intros c. apply stale_close_streams.
Qed.

(** ** [acquire] followed by [release] *)

Lemma stretch_of_tracks w wo :
  stretch_of w wo →
  _in_use (self wo.1) = foldr set_add (_in_use (self w)) (gives wo.2).
Proof.
  intros [->|[->|[res [->| ->]]]].
  - apply (warmup_stretch w).
  - apply (selection_stretch w).
  - destruct (resume_warmup_stretch res w) as (news & _ & _ & H & _). exact H.
  - destruct (resume_select_stretch res w) as (news & _ & _ & H & _). exact H.
Qed.

Lemma set_contains_release conn w :
  set_contains (_in_use (self w)) conn = true → ∃ w', release conn w = Ok w'.
Proof.
  intros H. unfold release.
  destruct (set_remove conn (_in_use (self w))) as [s|] eqn:E.
  - destruct (stale _ conn); eauto.
  - apply set_remove_None in E. congruence.
Qed.

(** X3: whatever stretch of [acquire] returns a connection, in whatever
    state of the pool, the connection is then in the in-use set, so that a
    [release] of it right away does not raise. *)
Theorem returned_connection_can_be_released
    (w : World) (wo : World * Outcome) (conn : Connection) :
  stretch_of w wo → wo.2 = Return conn →
  set_contains (_in_use (self wo.1)) conn = true ∧
  ∃ w', release conn wo.1 = Ok w'.
Proof.
  intros Hs Hr. pose proof (stretch_of_tracks _ _ Hs) as Hu.
  rewrite Hr in Hu. simpl in Hu.
  assert (Hc : set_contains (_in_use (self wo.1)) conn = true).
  { rewrite Hu. apply set_add_contains. }
  split; [exact Hc | by apply set_contains_release].
Qed.

Lemma returned_connection_can_be_released_witness :
  stretch_of idle_a (acquire idle_a) ∧ (acquire idle_a).2 = Return handle_a ∧
  ∃ w', release handle_a (acquire idle_a).1 = Ok w'.
Proof.
  assert (Hs : stretch_of idle_a (acquire idle_a)) by (by left).
  split; [exact Hs|]. split; [reflexivity|].
  apply (returned_connection_can_be_released idle_a (acquire idle_a) handle_a Hs eq_refl).
Defined.

Lemma set_remove_snoc c s :
  key c ∉ key <$> s → set_remove c (s ++ [c]) = Some s.
Proof.
  induction s as [|x s IH]; simpl; intros H.
  - assert (conn_eqb c c = true) as -> by (by apply conn_eqb_key). reflexivity.
  - apply not_elem_of_cons in H as [Hx Hs].
    assert (conn_eqb c x = false) as -> by (by apply conn_eqb_key_false).
    by rewrite (IH Hs).
Qed.

Lemma stretch_hands_out w wo :
  NoDup (keys w) → stretch_with_new_streams w wo → hands_out w wo.1 wo.2.
Proof.
  intros Hn [->|[->|[res [Hf [->| ->]]]]].
  - by apply warmup_exclusive.
  - by apply selection_exclusive.
  - by apply resume_warmup_exclusive.
  - by apply resume_select_exclusive.
Qed.

(** X4: take a pool that keeps no two equal connections and a stretch of
    [acquire] that returns [conn] (after a connector call, one that
    returned streams the pool did not keep). If [conn] passes the liveness
    test, releasing it right away succeeds, gives the in-use set it had
    before the stretch, puts [conn] at the tail of the queue and leaves
    [size()] as it is. *)
Theorem acquire_release_round_trip
    (w : World) (wo : World * Outcome) (conn : Connection) :
  NoDup (keys w) →
  stretch_with_new_streams w wo →
  wo.2 = Return conn →
  stale wo.1 conn = false →
  ∃ w', release conn wo.1 = Ok w' ∧
        _in_use (self w') = _in_use (self w) ∧
        _pool (self w') = _pool (self wo.1) ++ [conn] ∧
        size w' = size wo.1.
Proof.
  intros Hn Hs Hr Hh.
  pose proof (stretch_hands_out _ _ Hn Hs) as Ho.
  rewrite Hr in Ho. simpl in Ho. destruct Ho as [Hc Hu].
  unfold release. rewrite Hu, (set_remove_snoc _ _ Hc).
  rewrite stale_set_in_use, Hh. eexists. split; [reflexivity|].
  simpl. repeat split. unfold size; simpl. rewrite Hu, !length_app. simpl. lia.
Qed.

Lemma acquire_release_round_trip_witness :
  NoDup (keys idle_a) ∧ (acquire idle_a).2 = Return handle_a ∧
  ∃ w', release handle_a (acquire idle_a).1 = Ok w' ∧
        _in_use (self w') = [] ∧ _pool (self w') = [handle_a] ∧ size w' = 1.
Proof.
  assert (Hn : NoDup (keys idle_a)).
  { apply NoDup_singleton. }
  split; [exact Hn|]. split; [reflexivity|].
  destruct (acquire_release_round_trip idle_a (acquire idle_a) handle_a Hn)
    as (w' & H1 & H2 & H3 & H4).
  - by left.
  - reflexivity.
  - reflexivity.
  - exists w'. repeat split; assumption.
Defined.

(** ** A full pool, a dead connection *)

(** X5: when the pool is full ([size() >= maxsize]) and the queue is
    empty, [acquire] changes nothing, calls no connector and parks in
    [get], whatever [minsize] is; a caller woken in [get] on an empty queue
    parks there again. *)
Theorem full_pool_makes_acquire_wait (w : World) :
  _maxsize (self w) ≤ size w → _pool (self w) = [] →
  acquire w = (w, Suspend select_get) ∧
  resume_get w = (w, Suspend select_get).
Proof.
  intros HM Hq.
  assert (Hsel : selection w = (w, Suspend select_get)).
  { unfold selection. rewrite Hq. simpl. by rewrite set_pool_nil. }
  split; [|exact Hsel].
  unfold acquire, warmup. rewrite (create_new_conn_full _ HM), Hsel.
  by destruct (_ || _).
Qed.

Lemma full_pool_makes_acquire_wait_witness :
  _maxsize (self (lent handle_a)) ≤ size (lent handle_a) ∧
  acquire (lent handle_a) = (lent handle_a, Suspend select_get).
Proof.
  split; [vm_compute; discriminate|].
  apply (full_pool_makes_acquire_wait (lent handle_a)); [vm_compute; discriminate | reflexivity].
Defined.

(** X6: in a pool within its bound whose warm-up is over, a dead
    connection at the head of the queue is destroyed by [acquire], which
    then always reaches the connector: the place the dead connection took
    is free. If no other caller runs until the connector returns [r] and
    [wr], that is if [acquire] resumes in the world it left, it returns the
    Connection made of them, the rest of the queue is untouched and
    [size()] is not larger than before. Resumed in any other world [w1],
    it returns that Connection when [size() < maxsize] holds in [w1], and
    otherwise closes [r] and [wr] and goes back to taking from the
    queue. *)
Theorem dead_connection_replaced
    (w : World) (c : Connection) (q : list Connection) (r wr : ref) :
  size w ≤ _maxsize (self w) → _minsize (self w) ≤ size w →
  _pool (self w) = c :: q → stale w c = true →
  acquire w = (_do_close c (set_pool q w), Suspend select_connect) ∧
  (∃ w' conn,
    resume_select (Ok (r, wr)) (_do_close c (set_pool q w)) = (w', Return conn) ∧
    reader conn = r ∧ writer conn = wr ∧
    _pool (self w') = q ∧
    _in_use (self w') = set_add conn (_in_use (self w)) ∧
    size w' ≤ size w ∧
    _eof (reader_state w' (reader c)) = true ∧ writer c ∈ closed w') ∧
  (∀ w1,
    (size w1 < _maxsize (self w1) →
     ∃ w' conn, resume_select (Ok (r, wr)) w1 = (w', Return conn) ∧
                reader conn = r ∧ writer conn = wr ∧
                _pool (self w') = _pool (self w1)) ∧
    (_maxsize (self w1) ≤ size w1 →
     resume_select (Ok (r, wr)) w1 = selection (close_streams r wr w1))).
Proof.
  intros HM Hm Hq Hs.
  assert (Hsz : size (_do_close c (set_pool q w)) = size w - 1).
  { unfold size; simpl. rewrite Hq. simpl. lia. }
  split; [|split].
  - unfold acquire, warmup.
    assert (Hpos : 0 < size w) by (unfold size; rewrite Hq; simpl; lia).
    destruct (Z.eqb_spec (size w) 0); [lia|].
    destruct (Z.ltb_spec (size w) (_minsize (self w))); [lia|]. simpl.
    unfold selection. rewrite Hq. simpl. rewrite stale_set_pool, Hs.
    unfold _create_new_conn. rewrite Hsz. simpl.
    by destruct (Z.ltb_spec (size w - 1) (_maxsize (self w))); [|lia].
  - unfold resume_select, _create_new_conn_resume. rewrite Hsz. simpl.
    destruct (Z.ltb_spec (size w - 1) (_maxsize (self w))); [|lia]. simpl.
    eexists _, _. split; [reflexivity|]. simpl. repeat split.
    + unfold size; simpl. rewrite Hq. simpl.
      match goal with |- context [set_add ?x ?s] =>
        pose proof (set_add_length x s) end. lia.
    + unfold reader_state; simpl. by rewrite lookup_insert_eq.
    + apply elem_of_union. left. by apply elem_of_singleton.
  - intros w1. unfold resume_select, _create_new_conn_resume. split; intros H1.
    + destruct (Z.ltb_spec (size w1) (_maxsize (self w1))); [|lia]. simpl.
      eexists _, _. split; [reflexivity|]. by repeat split.
    + by destruct (Z.ltb_spec (size w1) (_maxsize (self w1))); [lia|].
Qed.

Lemma dead_connection_replaced_witness :
  stale (peer_closed idle_a) handle_a = true ∧
  ∃ w' conn,
    resume_select (Ok (8, 9)%nat) (acquire (peer_closed idle_a)).1 = (w', Return conn) ∧
    reader conn = 8%nat ∧ _pool (self w') = [] ∧ size w' ≤ 1.
Proof.
  split; [reflexivity|].
  destruct (dead_connection_replaced (peer_closed idle_a) handle_a [] 8%nat 9%nat)
    as (Ha & (w' & conn & H1 & H2 & _ & H3 & _ & H4 & _) & _);
    [vm_compute; discriminate | vm_compute; discriminate | reflexivity | reflexivity |].
  exists w', conn. rewrite Ha. simpl. repeat split; assumption.
Defined.

(** X7: releasing a dead connection to a pool within its bound takes one
    off [size()] and leaves room: the next [_create_new_conn] awaits the
    connector. *)
Theorem release_of_dead_frees_a_place (w w' : World) (conn : Connection) :
  size w ≤ _maxsize (self w) →
  release conn w = Ok w' → stale w conn = true →
  size w' = size w - 1 ∧
  _pool (self w') = _pool (self w) ∧
  _create_new_conn w' = awaits (_connector (self w)) (conn_args (self w)).
Proof.
  intros HM H Hs. unfold release in H.
  destruct (set_remove conn (_in_use (self w))) as [u|] eqn:E; [|discriminate].
  apply set_remove_Some in E as [Hl _].
  rewrite stale_set_in_use, Hs in H. injection H as <-.
  assert (Hsz : size (_do_close conn (set_in_use u w)) = size w - 1).
  { unfold size; simpl. lia. }
  split; [exact Hsz|]. split; [reflexivity|].
  unfold _create_new_conn. rewrite Hsz. simpl.
  by destruct (Z.ltb_spec (size w - 1) (_maxsize (self w))); [|lia].
Qed.

Lemma release_of_dead_frees_a_place_witness :
  ∃ w', release handle_a (peer_closed (lent handle_a)) = Ok w' ∧
        size w' = 0 ∧
        _create_new_conn w' = awaits open_connection (conn_args (self w')).
Proof.
  exists (_do_close handle_a (set_in_use [] (peer_closed (lent handle_a)))).
  split; [reflexivity|].
  destruct (release_of_dead_frees_a_place (peer_closed (lent handle_a))
              (_do_close handle_a (set_in_use [] (peer_closed (lent handle_a))))
              handle_a)
    as (H1 & _ & H3);
    [vm_compute; discriminate | reflexivity | reflexivity |].
  split; [exact H1 | exact H3].
Defined.

Lemma stale_same_readers w w' c : readers w' = readers w → stale w' c = stale w c.
Proof. intros H. unfold stale, reader_state. by rewrite H. Qed.

(** X8: a healthy connection released to a pool that keeps no two equal
    connections in use goes to the tail of the queue, and the next caller
    woken in [get] is served from the head: with an empty queue it gets the
    released connection itself and [size()] is what it was before the
    release; behind a healthy connection [h] it is [h] that is handed out,
    and the released connection stays idle. *)
Theorem released_connection_handed_over (w w' : World) (conn : Connection) :
  NoDup (key <$> _in_use (self w)) →
  release conn w = Ok w' → stale w conn = false →
  match _pool (self w) with
  | [] =>
      (resume_get w').2 = Return conn ∧
      _pool (self (resume_get w').1) = [] ∧
      size (resume_get w').1 = size w
  | h :: q =>
      stale w h = false →
      (resume_get w').2 = Return h ∧
      _pool (self (resume_get w').1) = q ++ [conn]
  end.
Proof.
  intros Hn H Hs. unfold release in H.
  destruct (set_remove conn (_in_use (self w))) as [u|] eqn:E; [|discriminate].
  apply set_remove_Some in E as [Hl Hp].
  rewrite Hp in Hn. apply NoDup_cons in Hn as [Hc _].
  rewrite stale_set_in_use, Hs in H. injection H as <-.
  unfold resume_get, selection. simpl.
  destruct (_pool (self w)) as [|h q] eqn:Hq; simpl.
  - rewrite (stale_same_readers w _ conn) by reflexivity. rewrite Hs. simpl. repeat split.
    unfold size; simpl. rewrite Hq, (set_add_new _ _ Hc), length_app. simpl. lia.
  - intros Hh. rewrite (stale_same_readers w _ h) by reflexivity. rewrite Hh. simpl. by split.
Qed.

Lemma released_connection_handed_over_witness :
  ∃ w', release handle_a (lent handle_a) = Ok w' ∧
        (resume_get w').2 = Return handle_a ∧
        size (resume_get w').1 = size (lent handle_a).
Proof.
  exists (put_nowait handle_a (set_in_use [] (lent handle_a))).
  split; [reflexivity|].
  pose proof (released_connection_handed_over (lent handle_a)
                (put_nowait handle_a (set_in_use [] (lent handle_a))) handle_a
                ltac:(apply NoDup_singleton) eq_refl eq_refl) as H.
  simpl in H. destruct H as (H1 & _ & H3). split; [exact H1 | exact H3].
Defined.

(** ** A connector that is false *)

(** Line 28 tests the truth of [connector], not its presence: a callable
    object whose [bool] is false is replaced by [asyncio.open_connection],
    with [host] and [port] stored, like a missing one. *)
Lemma false_connector_is_no_connector
    (host port : Value) (minsize maxsize : Z)
    (args : option (gmap string Value)) (f : ref) :
  __init__ host port minsize maxsize args (Some (custom_connector f false)) =
  __init__ host port minsize maxsize args None.
Proof. reflexivity. Qed.

(** ** The Unix-socket constructor *)

(** X9: [unix] raises, and then a TypeError, exactly when a keyword
    [__init__] does not know is passed, when one of [host], [port],
    [minsize], [maxsize] is missing or when [conn_args=None] is passed. A
    [connector] keyword makes no difference. When [unix] returns a pool,
    the values of [host] and [port] make no difference to it either, and
    its [conn_args] are those passed, but for [path]. *)
Theorem unix_edge_cases (path : option Value) (kw : Kwargs) :
  (unix path kw = Raised TypeError ↔
     kw_unknown kw ≠ [] ∨ kw_host kw = None ∨ kw_port kw = None ∨
     kw_minsize kw = None ∨ kw_maxsize kw = None ∨
     kw_conn_args kw = Some None) ∧
  (∀ e, unix path kw = Raised e → e = TypeError) ∧
  (∀ c, unix path (with_connector c kw) = unix path kw) ∧
  (∀ p, unix path kw = Ok p →
     (∀ host port, unix path (with_address host port kw) = Ok p) ∧
     (∀ k, k ≠ "path" →
        conn_args p !! k = default ∅ (default None (kw_conn_args kw)) !! k)).
Proof.
  unfold unix, call_cls, with_connector, with_address.
  destruct kw as [h p mn mx ca co un]; simpl.
  destruct ca as [[args|]|], un as [|x un], h, p, mn, mx; simpl;
    (split; [split; [try discriminate; intros _; auto 10 |
                     intros [?|[?|[?|[?|[?|?]]]]]; congruence] |]);
    (split; [intros e; try discriminate; congruence |]);
    (split; [reflexivity |]);
    intros q; try discriminate; intros [= <-]; simpl;
    (split; [reflexivity |]); intros k Hk; by rewrite lookup_insert_ne.
Qed.

Lemma unix_edge_cases_witness :
  ∃ p, unix None unix_kwargs = Ok p ∧
       unix None (with_address (VStr "example.org") (VInt 11211) unix_kwargs) = Ok p ∧
       conn_args p !! "host" = None.
Proof.
  eexists. split; [reflexivity|].
  destruct (proj2 (proj2 (proj2 (unix_edge_cases None unix_kwargs))) _ eq_refl)
    as [H1 H2].
  split; [apply H1 | apply H2; discriminate].
Defined.

(** ** Warm-up with [minsize] above [maxsize] *)

Lemma resume_warmup_capped m M j calls w :
  M < m → warming m M j w → Z.of_nat j < M →
  let wo := resume_warmup (healthy_connector calls) w in
  if decide (Z.of_nat (S j) < M)
  then wo.2 = Suspend warmup_connect ∧ warming m M (S j) wo.1
  else ∃ c, wo.2 = Return c ∧ size wo.1 = Z.of_nat (S j).
Proof.
  intros HmM Hw Hj. pose proof (warming_size _ _ _ _ Hw) as Hs.
  destruct Hw as (Hm & HM & Hu & Hq & Hr).
  unfold resume_warmup, healthy_connector, _create_new_conn_resume.
  destruct (Z.ltb_spec (size w) (_maxsize (self w))); [|lia]. simpl.
  match goal with |- context [warmup ?w1] => set (w2 := w1) end.
  assert (Hw2 : warming m M (S j) w2).
  { unfold warming, w2; simpl. rewrite length_app; simpl.
    repeat split; auto. lia. }
  pose proof (warming_size _ _ _ _ Hw2) as Hs2.
  unfold warmup, _create_new_conn. rewrite Hs2.
  replace (_minsize (self w2)) with m by (symmetry; apply Hw2).
  replace (_maxsize (self w2)) with M by (symmetry; apply Hw2).
  destruct (Z.eqb_spec (Z.of_nat (S j)) 0); [lia|].
  destruct (Z.ltb_spec (Z.of_nat (S j)) m); [|lia]. simpl.
  case_decide.
  - destruct (Z.ltb_spec (Z.of_nat (S j)) M); [|lia]. by split.
  - destruct (Z.ltb_spec (Z.of_nat (S j)) M); [lia|].
    by apply (selection_healthy m M).
Qed.

Lemma drive_capped m M d : ∀ j calls w,
  M < m → Z.of_nat (j + S d) = M → warming m M j w →
  ∃ w' c, drive (S d) calls w (Suspend warmup_connect) = Some (w', c) ∧
          size w' = M.
Proof.
  induction d as [|d IH]; intros j calls w HmM Hn Hw; simpl.
  - pose proof (resume_warmup_capped m M j calls w HmM Hw ltac:(lia)) as H.
    simpl in H. case_decide; [lia|]. destruct H as (c & -> & Hs).
    eexists _, c. split; [reflexivity|]. lia.
  - pose proof (resume_warmup_capped m M j calls w HmM Hw ltac:(lia)) as H.
    simpl in H. case_decide; [|lia]. destruct H as [-> Hw'].
    apply (IH (S j) (S calls) _ HmM ltac:(lia) Hw').
Qed.

Lemma drive_starved m M fuel : ∀ j calls w,
  M < m → warming m M j w → Z.of_nat (j + fuel) < M →
  drive fuel calls w (Suspend warmup_connect) = None.
Proof.
  induction fuel as [|fuel IH]; intros j calls w HmM Hw Hlt; simpl; [reflexivity|].
  pose proof (resume_warmup_capped m M j calls w HmM Hw ltac:(lia)) as H.
  simpl in H. case_decide; [|lia]. destruct H as [-> Hw'].
  apply (IH (S j) (S calls) _ HmM Hw'). lia.
Qed.

(** X10: with [minsize] above [maxsize >= 1], a caller alone on a new pool,
    served by a connector that always connects, gets its connection after
    exactly [maxsize] connector calls: the warm-up stops at the bound, and
    [size()] is [maxsize], whatever fuel the run is given beyond that. *)
Theorem warmup_stops_at_maxsize
    (host port : Value) (m M : Z)
    (args : option (gmap string Value)) (connector : option Connector) :
  1 ≤ M → M < m →
  let w0 := fresh_world (__init__ host port m M args connector) in
  (∃ w c, acquire_alone (Z.to_nat M) w0 = Some (w, c) ∧ size w = M) ∧
  (∀ fuel, (fuel < Z.to_nat M)%nat → acquire_alone fuel w0 = None) ∧
  (∀ fuel w c, acquire_alone fuel w0 = Some (w, c) → size w = M).
Proof.
  intros H1 HmM w0.
  assert (Hw : warming m M 0 w0).
  { unfold w0, warming. by destruct connector as [[| |? []]|]. }
  assert (Hstart : acquire w0 = (w0, Suspend warmup_connect)).
  { unfold acquire, warmup, _create_new_conn.
    rewrite (warming_size _ _ _ _ Hw).
    replace (_maxsize (self w0)) with M by (symmetry; apply Hw).
    destruct (Z.ltb_spec (Z.of_nat 0) M); [|lia]. reflexivity. }
  assert (Hconv : ∃ w c, acquire_alone (Z.to_nat M) w0 = Some (w, c) ∧ size w = M).
  { unfold acquire_alone. rewrite Hstart. simpl.
    destruct (Z.to_nat M) as [|d] eqn:E; [lia|].
    apply (drive_capped m M d 0 0%nat); [exact HmM | lia | exact Hw]. }
  split; [exact Hconv|]. split.
  - intros fuel Hlt. unfold acquire_alone. rewrite Hstart. simpl.
    apply (drive_starved m M fuel 0 0%nat); [exact HmM | exact Hw | lia].
  - intros fuel w c H. destruct Hconv as (w1 & c1 & Hrun & Hs).
    unfold acquire_alone in H, Hrun.
    apply (drive_more _ (Nat.max fuel (Z.to_nat M))) in H; [|lia].
    apply (drive_more _ (Nat.max fuel (Z.to_nat M))) in Hrun; [|lia].
    rewrite H in Hrun. by injection Hrun as -> ->.
Qed.

Lemma warmup_stops_at_maxsize_witness :
  1 ≤ 2 ∧ 2 < 5 ∧
  ∃ w c, acquire_alone 2 (fresh_world (__init__ VNone VNone 5 2 None None))
           = Some (w, c) ∧ size w = 2.
Proof.
  split; [lia|]. split; [lia|].
  apply (warmup_stops_at_maxsize VNone VNone 5 2 None None); lia.
Defined.

(** ** What [release] and [acquire] never do *)

(** X11: a [release] that succeeds takes one off [size()] when the
    connection is dead and leaves it alone otherwise; if the in-use set
    held no two equal connections, releasing the same connection once more
    raises KeyError. *)
Theorem release_once (w w' : World) (conn : Connection) :
  release conn w = Ok w' →
  size w' = (if stale w conn then size w - 1 else size w) ∧
  (NoDup (key <$> _in_use (self w)) → release conn w' = Raised KeyError).
Proof.
  intros H. unfold release in H.
  destruct (set_remove conn (_in_use (self w))) as [u|] eqn:E; [|discriminate].
  apply set_remove_Some in E as [Hl Hp].
  rewrite stale_set_in_use in H.
  assert (Hu : _in_use (self w') = u).
  { by destruct (stale w conn); injection H as <-. }
  split.
  - destruct (stale w conn); injection H as <-; unfold size; simpl;
      rewrite ?length_app; simpl; lia.
  - intros Hn. rewrite Hp in Hn. apply NoDup_cons in Hn as [Hc _].
    unfold release. rewrite Hu.
    apply set_contains_key_false, set_remove_None in Hc. by rewrite Hc.
Qed.

Lemma release_once_witness :
  release handle_a (lent handle_a)
    = Ok (put_nowait handle_a (set_in_use [] (lent handle_a))) ∧
  size (put_nowait handle_a (set_in_use [] (lent handle_a))) = 1 ∧
  release handle_a (put_nowait handle_a (set_in_use [] (lent handle_a)))
    = Raised KeyError.
Proof.
  split; [reflexivity|].
  destruct (release_once (lent handle_a)
              (put_nowait handle_a (set_in_use [] (lent handle_a))) handle_a eq_refl)
    as [H1 H2].
  split; [exact H1 | apply H2, NoDup_singleton].
Defined.

Lemma select_connects_for_dead q : ∀ w,
  (select q w).2 = Suspend select_connect →
  ∃ c q', q = c :: q' ∧ stale w c = true.
Proof.
  destruct q as [|c q]; intros w; simpl; [discriminate|].
  rewrite stale_set_pool. destruct (stale w c) eqn:E; [eauto | discriminate].
Qed.

Lemma select_not_warmup q : ∀ w, (select q w).2 ≠ Suspend warmup_connect.
Proof.
  induction q as [|c q IH]; intros w; simpl; [discriminate|].
  destruct (stale _ c); [|discriminate].
  destruct (_create_new_conn _); [discriminate | apply IH].
Qed.

(** X12: [acquire] goes to the connector for two reasons only. On a pool
    that is not empty and has reached [minsize] it does not wait for a
    warm-up connection, and it waits for a replacement only when the
    connection at the head of the queue is dead; with a healthy head it
    returns that connection at once. *)
Theorem connector_only_when_needed (w : World) :
  size w ≠ 0 → _minsize (self w) ≤ size w →
  (acquire w).2 ≠ Suspend warmup_connect ∧
  ((acquire w).2 = Suspend select_connect →
     ∃ c q, _pool (self w) = c :: q ∧ stale w c = true) ∧
  (∀ c q, _pool (self w) = c :: q → stale w c = false →
     (acquire w).2 = Return c ∧ _pool (self (acquire w).1) = q).
Proof.
  intros H0 Hm.
  assert (Ha : acquire w = selection w).
  { unfold acquire, warmup.
    destruct (Z.eqb_spec (size w) 0); [lia|].
    by destruct (Z.ltb_spec (size w) (_minsize (self w))); [lia|]. }
  rewrite Ha. split; [apply select_not_warmup|]. split.
  - apply select_connects_for_dead.
  - intros c q Hq Hs. unfold selection. rewrite Hq. simpl.
    rewrite stale_set_pool, Hs. by split.
Qed.

Lemma connector_only_when_needed_witness :
  size idle_a ≠ 0 ∧ _minsize (self idle_a) ≤ size idle_a ∧
  (acquire idle_a).2 = Return handle_a ∧ _pool (self (acquire idle_a).1) = [].
Proof.
  split; [discriminate|]. split; [vm_compute; discriminate|].
  destruct (connector_only_when_needed idle_a) as (_ & _ & H);
    [discriminate | vm_compute; discriminate |].
  apply (H handle_a []); reflexivity.
Defined.
